(** * Containers of [advanced_structures.py]: stack, queue, my_queue, heapq

    A shallow embedding of the container classes of
    [src/advanced_structures.py] and of the priority queue the file builds
    on Python's [heapq], with the laws the specification states for them.

    Python objects are mutable: a method is embedded as a function from the
    object's state to an [outcome], which is either a returned value with
    the state after the call, or a raised exception with the state the
    object was left in when the exception escaped. *)

From Stdlib Require Import ZArith Ascii String.
From stdpp Require Import base tactics option list sorting strings.
From Equations Require Import Equations.
From stdpp Require Import gmap.

Open Scope Z_scope.

(** ** Python values and their runtime types *)

(** The classes returned by [type(x)] for the values the containers hold. *)
Inductive pytype : Type :=
  | NoneType
  | bool_
  | int
  | str
  | tuple.

Global Instance pytype_eq_dec : EqDecision pytype.
Proof. solve_decision. Defined.

(** Values. [VNone] is Python's [None], which the silent-absence methods
    return for "no value". *)
#[local] Unset Elimination Schemes.
Inductive pyval : Type :=
  | VNone
  | VBool (b : bool)
  | VInt (z : Z)
  | VStr (s : string)
  | VTuple (items : list pyval).
#[local] Set Elimination Schemes.

(** [type(v)]: the exact class of [v] (so [type(True)] is [bool], not
    [int]). *)
Definition type (v : pyval) : pytype :=
  match v with
  | VNone => NoneType
  | VBool _ => bool_
  | VInt _ => int
  | VStr _ => str
  | VTuple _ => tuple
  end.

(** ** Exceptions and outcomes

    The exceptions the containers raise: the [AssertionError] of a failed
    [assert], which is how [my_queue] reports a value of the wrong type
    (the specification's TypeMismatchError), and [IndexError], which is
    how [my_queue], [list] and [deque] report a read from an empty
    container (the specification's EmptyContainerError); and the
    [TypeError] of a comparison between values that have no order. *)

Inductive exn : Type :=
  | AssertionError
  | IndexError (msg : string)
  | TypeError (msg : string).

(** The result of a pure builtin: a value or an exception. *)
Inductive result (A : Type) : Type :=
  | Ok (a : A)
  | Err (e : exn).
Arguments Ok {A} a.
Arguments Err {A} e.

(** The outcome of a method call on an object of state [S]. *)
Inductive outcome (S A : Type) : Type :=
  | Returns (a : A) (s : S)
  | Raises (e : exn) (s : S).
Arguments Returns {S A} a s.
Arguments Raises {S A} e s.

(** A method body: a state transformer that may raise. *)
Definition M (S A : Type) : Type := S → outcome S A.

Definition ret {S A} (a : A) : M S A := λ s, Returns a s.

Definition bind {S A B} (m : M S A) (k : A → M S B) : M S B :=
  λ s, match m s with
       | Returns a s' => k a s'
       | Raises e s' => Raises e s'
       end.

Definition raise {S A} (e : exn) : M S A := λ s, Raises e s.

(** Read an attribute of [self]. *)
Definition gets {S A} (f : S → A) : M S A := λ s, Returns (f s) s.

(** Assign to the attributes of [self]. *)
Definition modify {S} (f : S → S) : M S unit := λ s, Returns tt (f s).

(** [assert b]. *)
Definition assert_ {S} (b : bool) : M S unit :=
  if b then ret tt else raise AssertionError.

(** Run a builtin on the current state; an exception of the builtin
    escapes with the state untouched by it. *)
Definition lift {S A} (r : result A) : M S A :=
  match r with
  | Ok a => ret a
  | Err e => raise e
  end.

(** The monad structure, so that method bodies read [x ← m; k] and
    [m;; k]. *)
Global Instance M_ret {S} : MRet (M S) := λ A, ret.
Global Instance M_bind {S} : MBind (M S) := λ A B k m, bind m k.

(** Builtins are pure and return a [result]; it is a monad too. *)
Global Instance result_ret : MRet result := λ A, Ok.
Global Instance result_bind : MBind result := λ A B k r,
  match r with
  | Ok a => k a
  | Err e => Err e
  end.

(** The value returned by a statement-only body that falls off its end. *)
Definition return_None {S} : M S pyval := ret VNone.

(** ** Builtin sequences: [list] and [collections.deque] *)

Module pylist.
Section ops.
Context {A : Type}.

(** [bool(l)]: a list is true when it is not empty. *)
Definition truthy (l : list A) : bool :=
  match l with
  | [] => false
  | _ :: _ => true
  end.

(** [len(l)]. *)
Definition len (l : list A) : Z := Z.of_nat (length l).

(** [l.append(x)]. *)
Definition append (l : list A) (x : A) : list A := l ++ [x].

(** [l.pop()]: removes and returns the last item. *)
Definition pop (l : list A) : result (A * list A) :=
  match last l with
  | Some x => Ok (x, removelast l)
  | None => Err (IndexError "pop from empty list")
  end.

(** [l.pop(0)]: removes and returns the first item. *)
Definition pop0 (l : list A) : result (A * list A) :=
  match l with
  | x :: l' => Ok (x, l')
  | [] => Err (IndexError "pop from empty list")
  end.

(** [l[i]] for a non-negative position [i]. *)
Definition getitem (l : list A) (i : nat) : result A :=
  match l !! i with
  | Some x => Ok x
  | None => Err (IndexError "list index out of range")
  end.

(** [l[-1]]. *)
Definition getlast (l : list A) : result A :=
  match last l with
  | Some x => Ok x
  | None => Err (IndexError "list index out of range")
  end.

(** [l[i] = x] for a non-negative position [i]. *)
Definition setitem (l : list A) (i : nat) (x : A) : result (list A) :=
  if decide (i < length l)%nat then Ok (<[i:=x]> l)
  else Err (IndexError "list assignment index out of range").
End ops.
End pylist.

Module deque.
Section ops.
Context {A : Type}.

(** A deque is the sequence of its items, left end first. *)
Definition t : Type := list A.

(** [deque()]. *)
Definition new : t := [].

(** [len(d)]. *)
Definition len (d : t) : Z := Z.of_nat (length d).

(** [d.append(x)]: adds [x] at the right end. *)
Definition append (d : t) (x : A) : t := d ++ [x].

(** [d.popleft()]. *)
Definition popleft (d : t) : result (A * t) :=
  match d with
  | x :: d' => Ok (x, d')
  | [] => Err (IndexError "pop from an empty deque")
  end.

(** [d[0]]. *)
Definition getitem0 (d : t) : result A :=
  match d with
  | x :: _ => Ok x
  | [] => Err (IndexError "deque index out of range")
  end.
End ops.
Arguments t : clear implicits.
End deque.

(** ** SECTION 3: the class [stack] *)

Module stack.

(** The attributes of an instance: [self.stack], bottom first. *)
Record obj : Type := mk { stack : list pyval }.

(** [__init__(self, elements=None)]. *)
Definition __init__ (elements : option (list pyval)) : obj :=
  match elements with
  | None => mk []
  | Some els => mk els
  end.

(** [push(self, element)]. *)
Definition push (element : pyval) : M obj pyval :=
  modify (λ self, mk (pylist.append (stack self) element));;
  return_None.

(** [pop(self)]: the popped item is dropped, the call returns [None]. *)
Definition pop : M obj pyval :=
  l ← gets stack;
  if pylist.truthy l then
    '(_, l') ← lift (pylist.pop l);
    modify (λ _, mk l');;
    return_None
  else return_None.

(** [top(self)]. *)
Definition top : M obj pyval :=
  l ← gets stack;
  if pylist.truthy l then lift (pylist.getlast l)
  else return_None.

(** [size(self)]. *)
Definition size : M obj Z :=
  l ← gets stack; mret (pylist.len l).

(** [is_empty(self)]. *)
Definition is_empty : M obj bool :=
  l ← gets stack;
  if pylist.truthy l then mret false else mret true.

End stack.

(** ** SECTION 4: the class [queue] *)

Module queue.

(** The attributes of an instance: [self.queue], front first. *)
Record obj : Type := mk { queue : list pyval }.

(** [__init__(self)]. *)
Definition __init__ : obj := mk [].

(** [enqueue(self, element)]. *)
Definition enqueue (element : pyval) : M obj pyval :=
  modify (λ self, mk (pylist.append (queue self) element));;
  return_None.

(** [dequeue(self)]. *)
Definition dequeue : M obj pyval :=
  l ← gets queue;
  if pylist.truthy l then
    '(x, l') ← lift (pylist.pop0 l);
    modify (λ _, mk l');;
    mret x
  else mret VNone.

(** [front(self)]. *)
Definition front : M obj pyval :=
  l ← gets queue;
  if pylist.truthy l then lift (pylist.getitem l 0)
  else mret VNone.

(** [is_empty(self)]. *)
Definition is_empty : M obj bool :=
  l ← gets queue; mret (bool_decide (pylist.len l = 0)).

(** [size(self)]. *)
Definition size : M obj Z :=
  l ← gets queue; mret (pylist.len l).

End queue.

(** ** SECTION 5: the class [my_queue] *)

Module my_queue.

(** The attributes of an instance. *)
Record obj : Type := mk { element_type : pytype; queue : deque.t pyval }.

(** [__init__(self, element_type)]. *)
Definition __init__ (element_type : pytype) : obj :=
  mk element_type deque.new.

(** [enqueue(self, element)]. *)
Definition enqueue (element : pyval) : M obj pyval :=
  ty ← gets element_type;
  assert_ (bool_decide (type element = ty));;
  modify (λ self, mk (element_type self) (deque.append (queue self) element));;
  return_None.

(** [empty(self)]. *)
Definition empty : M obj bool :=
  d ← gets queue; mret (bool_decide (deque.len d = 0)).

(** [dequeue(self)]. *)
Definition dequeue : M obj pyval :=
  e ← empty;
  if negb e then
    d ← gets queue;
    '(x, d') ← lift (deque.popleft d);
    modify (λ self, mk (element_type self) d');;
    mret x
  else raise (IndexError "ERROR - Dequeue has been called on an empty queue.").

(** [front(self)]. *)
Definition front : M obj pyval :=
  e ← empty;
  if negb e then
    d ← gets queue;
    lift (deque.getitem0 d)
  else raise (IndexError "ERROR - Front has been called on an empty queue.").

End my_queue.

(** ** SECTION 6: priority queues on [heapq]

    The source keeps its priority queue in a plain list [pri_q_heap] and
    calls [heapq.heappush] and [heapq.heappop] on it.  These are the
    functions of Python's standard [heapq] module (Lib/heapq.py); they are
    embedded here statement by statement, as methods on the list they
    mutate, each with its Python text beside it.  Positions are
    non-negative and are modelled in [nat]. *)

Module heapq.
Section heapq.
Context {A : Type}.

(** The comparison [x < y] of two items of the heap. *)
Context (less : A → A → bool).

(** The heap is the list the functions receive and mutate in place. *)
Abbreviation heap := (list A).

(** [heap[i]]. *)
Definition getitem (i : nat) : M heap A :=
  h ← gets id; lift (pylist.getitem h i).

(** [heap[i] = x]. *)
Definition setitem (i : nat) (x : A) : M heap unit :=
  h ← gets id; h' ← lift (pylist.setitem h i x); modify (λ _, h').

(** [len(heap)]. *)
Definition len : M heap nat := gets length.

(** [(pos - 1) >> 1], for [pos > 0]. *)
Definition parent_of (pos : nat) : nat := Nat.shiftr (pos - 1) 1.

(** The loop of [_siftdown]; it returns the final [pos].
<<
    while pos > startpos:
        parentpos = (pos - 1) >> 1
        parent = heap[parentpos]
        if newitem < parent:
            heap[pos] = parent
            pos = parentpos
            continue
        break
>> *)
Equations? _siftdown_while (startpos pos : nat) (newitem : A) : M heap nat
  by wf pos Nat.lt :=
_siftdown_while startpos pos newitem with decide (startpos < pos)%nat => {
  | right _ := mret pos
  | left _ :=
      let parentpos := parent_of pos in
      parent ← getitem parentpos;
      if less newitem parent then
        setitem pos parent;;
        _siftdown_while startpos parentpos newitem
      else mret pos }.
Proof.
  unfold parentpos, parent_of. simpl. rewrite Nat.div2_div.
  apply Nat.Div0.div_lt_upper_bound; lia.
Qed.

(** [_siftdown(heap, startpos, pos)].
<<
    newitem = heap[pos]
    while pos > startpos: ...
    heap[pos] = newitem
>> *)
Definition _siftdown (startpos pos : nat) : M heap unit :=
  newitem ← getitem pos;
  pos ← _siftdown_while startpos pos newitem;
  setitem pos newitem.

(** The loop of [_siftup]; it returns the final [pos].
<<
    while childpos < endpos:
        rightpos = childpos + 1
        if rightpos < endpos and not heap[childpos] < heap[rightpos]:
            childpos = rightpos
        heap[pos] = heap[childpos]
        pos = childpos
        childpos = 2*pos + 1
>> *)
Equations? _siftup_while (endpos pos childpos : nat) : M heap nat
  by wf (endpos - childpos)%nat Nat.lt :=
_siftup_while endpos pos childpos with decide (childpos < endpos)%nat => {
  | right _ := mret pos
  | left _ :=
      let rightpos := (childpos + 1)%nat in
      take_right ←
        (if decide (rightpos < endpos)%nat then
           l ← getitem childpos; r ← getitem rightpos; mret (negb (less l r))
         else mret false);
      let childpos' := if take_right : bool then rightpos else childpos in
      child ← getitem childpos';
      setitem pos child;;
      let pos' := childpos' in
      _siftup_while endpos pos' (2 * pos' + 1)%nat }.
Proof.
  subst pos' childpos' rightpos. destruct take_right; lia.
Qed.

(** [_siftup(heap, pos)].
<<
    endpos = len(heap)
    startpos = pos
    newitem = heap[pos]
    childpos = 2*pos + 1
    while childpos < endpos: ...
    heap[pos] = newitem
    _siftdown(heap, startpos, pos)
>> *)
Definition _siftup (pos : nat) : M heap unit :=
  endpos ← len;
  let startpos := pos in
  newitem ← getitem pos;
  pos ← _siftup_while endpos pos (2 * pos + 1)%nat;
  setitem pos newitem;;
  _siftdown startpos pos.

(** [heappush(heap, item)].
<<
    heap.append(item)
    _siftdown(heap, 0, len(heap)-1)
>> *)
Definition heappush (item : A) : M heap unit :=
  modify (λ h, pylist.append h item);;
  n ← len;
  _siftdown 0 (n - 1).

(** [heap.pop()]. *)
Definition pop_last : M heap A :=
  h ← gets id; '(x, h') ← lift (pylist.pop h); modify (λ _, h');; mret x.

(** [heappop(heap)].
<<
    lastelt = heap.pop()
    if heap:
        returnitem = heap[0]
        heap[0] = lastelt
        _siftup(heap, 0)
        return returnitem
    return lastelt
>> *)
Definition heappop : M heap A :=
  lastelt ← pop_last;
  h ← gets id;
  if pylist.truthy h then
    returnitem ← getitem 0;
    setitem 0 lastelt;;
    _siftup 0;;
    mret returnitem
  else mret lastelt.

End heapq.
End heapq.

(** *** Entries of the priority queue

    The source pushes tuples [(priority, payload)] of an [int] and a [str],
    such as [(2, 'Sleep')].  [heapq] orders them with the tuple's own [<]. *)

Definition entry : Type := Z * string.

(** [a < b] on two such tuples: the first components decide unless they
    are equal, and then the second components do. *)
Definition tuple_lt (a b : entry) : bool :=
  if (fst a =? fst b)%Z then String.ltb (snd a) (snd b)
  else (fst a <? fst b)%Z.

(** [pri_q_heap = []]. *)
Definition pri_q_heap : list entry := [].

(** *** Items of any kind

    Nothing in [heapq] asks for the items to be such tuples: it compares
    whatever it is given with Python's [<], which raises [TypeError] on
    values that have no order, and the tuple's [<] compares payloads when
    priorities are equal. *)







(** [heapq] on items of any kind: the functions of [heapq] above, with a
    comparison that may raise.  [heapq] above is what they do when the
    comparison always answers. *)
Module heapq_dyn.
Section heapq_dyn.
Context {A : Type}.

(** The comparison [x < y] of two items of the heap. *)
Context (less : A → A → result bool).

(** The loop of [_siftdown]. *)
Equations? _siftdown_while (startpos pos : nat) (newitem : A) : M (list A) nat
  by wf pos Nat.lt :=
_siftdown_while startpos pos newitem with decide (startpos < pos)%nat => {
  | right _ := mret pos
  | left _ :=
      let parentpos := heapq.parent_of pos in
      parent ← heapq.getitem parentpos;
      smaller ← lift (less newitem parent);
      if smaller : bool then
        heapq.setitem pos parent;;
        _siftdown_while startpos parentpos newitem
      else mret pos }.
Proof.
  unfold parentpos, heapq.parent_of. simpl. rewrite Nat.div2_div.
  apply Nat.Div0.div_lt_upper_bound; lia.
Qed.

(** [_siftdown(heap, startpos, pos)]. *)
Definition _siftdown (startpos pos : nat) : M (list A) unit :=
  newitem ← heapq.getitem pos;
  pos ← _siftdown_while startpos pos newitem;
  heapq.setitem pos newitem.

(** The loop of [_siftup]. *)
Equations? _siftup_while (endpos pos childpos : nat) : M (list A) nat
  by wf (endpos - childpos)%nat Nat.lt :=
_siftup_while endpos pos childpos with decide (childpos < endpos)%nat => {
  | right _ := mret pos
  | left _ :=
      let rightpos := (childpos + 1)%nat in
      take_right ←
        (if decide (rightpos < endpos)%nat then
           l ← heapq.getitem childpos; r ← heapq.getitem rightpos;
           smaller ← lift (less l r);
           mret (negb smaller)
         else mret false);
      let childpos' := if take_right : bool then rightpos else childpos in
      child ← heapq.getitem childpos';
      heapq.setitem pos child;;
      let pos' := childpos' in
      _siftup_while endpos pos' (2 * pos' + 1)%nat }.
Proof.
  subst pos' childpos' rightpos. destruct take_right; lia.
Qed.

(** [_siftup(heap, pos)]. *)
Definition _siftup (pos : nat) : M (list A) unit :=
  endpos ← heapq.len;
  let startpos := pos in
  newitem ← heapq.getitem pos;
  pos ← _siftup_while endpos pos (2 * pos + 1)%nat;
  heapq.setitem pos newitem;;
  _siftdown startpos pos.

(** [heappush(heap, item)]. *)
Definition heappush (item : A) : M (list A) unit :=
  modify (λ h, pylist.append h item);;
  n ← heapq.len;
  _siftdown 0 (n - 1).

(** [heappop(heap)]. *)
Definition heappop : M (list A) A :=
  lastelt ← heapq.pop_last;
  h ← gets id;
  if pylist.truthy h then
    returnitem ← heapq.getitem 0;
    heapq.setitem 0 lastelt;;
    _siftup 0;;
    mret returnitem
  else mret lastelt.

End heapq_dyn.
End heapq_dyn.

(** A method applied to an attribute that is itself a mutable object. *)
Definition on_attr {S T A} (get : S → T) (set : S → T → S) (m : M T A) : M S A :=
  λ self, match m (get self) with
          | Returns a t => Returns a (set self t)
          | Raises e t => Raises e (set self t)
          end.

(** [queue.PriorityQueue], as far as the source uses it: an unbounded
    queue whose [put] and [get] delegate to [heappush] and [heappop] on
    [self.queue].  The locks are left out; a [get] that finds the queue
    empty waits for a producer, which is the [Blocked] answer here. *)
Module PriorityQueue.

Record obj : Type := mk { queue : list entry }.

Inductive answer (A : Type) : Type :=
  | Got (a : A)
  | Blocked.
Arguments Got {A} a.
Arguments Blocked {A}.

(** [PriorityQueue()]. *)
Definition __init__ : obj := mk [].

(** [put(self, item)]. *)
Definition put (item : entry) : M obj unit :=
  on_attr queue (λ _ q, mk q) (heapq.heappush tuple_lt item).

(** [get(self)]. *)
Definition get : M obj (answer entry) :=
  q ← gets queue;
  if bool_decide (length q = 0%nat) then mret Blocked
  else x ← on_attr queue (λ _ q, mk q) (heapq.heappop tuple_lt); mret (Got x).

End PriorityQueue.

(** [pri_q_PQ = PriorityQueue()]. *)
Definition pri_q_PQ : PriorityQueue.obj := PriorityQueue.__init__.

(** ** Client programs

    The laws of the specification speak about sequences of calls.  These
    combinators build such sequences. *)

(** Call [f] on each item of [xs] in turn, collecting what the calls
    return. *)
Fixpoint for_each {S A B} (f : A → M S B) (xs : list A) : M S (list B) :=
  match xs with
  | [] => mret []
  | x :: xs' => b ← f x; bs ← for_each f xs'; mret (b :: bs)
  end.

(** Call [m] [n] times, collecting what the calls return. *)
Fixpoint repeat_call {S A} (m : M S A) (n : nat) : M S (list A) :=
  match n with
  | O => mret []
  | S n' => a ← m; rest ← repeat_call m n'; mret (a :: rest)
  end.

(** Call [m] and report the state it was called in beside its answer. *)
Definition observe {S A} (m : M S A) : M S (S * A) :=
  before ← gets id; a ← m; mret (before, a).

(** Enqueue [es] on a fresh [queue], then dequeue [n] times. *)
Definition queue_session (es : list pyval) (n : nat) : outcome queue.obj (list pyval) :=
  (for_each queue.enqueue es;; repeat_call queue.dequeue n) queue.__init__.

(** Enqueue [es] on a fresh [my_queue] for [ty], then dequeue [n] times. *)
Definition my_queue_session (ty : pytype) (es : list pyval) (n : nat)
  : outcome my_queue.obj (list pyval) :=
  (for_each my_queue.enqueue es;; repeat_call my_queue.dequeue n)
    (my_queue.__init__ ty).

(** Push [es] on the empty [pri_q_heap], then pop [n] times. *)
Definition heap_session (es : list entry) (n : nat) : outcome (list entry) (list entry) :=
  (for_each (heapq.heappush tuple_lt) es;;
   repeat_call (heapq.heappop tuple_lt) n) pri_q_heap.





(** A call on a stack: a push or a pop. *)
Inductive stack_call : Type :=
  | Push (element : pyval)
  | Pop.

(** Make one call; the answer tells whether it was a pop of an empty
    stack. *)
Definition stack_step (c : stack_call) : M stack.obj bool :=
  match c with
  | Push x => stack.push x;; mret false
  | Pop => e ← stack.is_empty; stack.pop;; mret e
  end.

(** Make the calls [cs] on a fresh empty stack. *)
Definition stack_session (cs : list stack_call) : outcome stack.obj (list bool) :=
  for_each stack_step cs (stack.__init__ None).

Definition is_push (c : stack_call) : bool :=
  match c with Push _ => true | Pop => false end.

(** The numbers of pushes, of pops, and of pops that found the stack
    empty. *)
Definition push_count (cs : list stack_call) : Z :=
  Z.of_nat (length (filter (λ c, is_push c = true) cs)).
Definition pop_count (cs : list stack_call) : Z :=
  Z.of_nat (length (filter (λ c, is_push c = false) cs)).
Definition noop_count (answers : list bool) : Z :=
  Z.of_nat (length (filter (λ b, b = true) answers)).

(** The most recently pushed element not yet popped, read off the calls
    alone, last call first: [skip] counts the pops still to be matched
    with a push. *)
Fixpoint unmatched_push (rev_calls : list stack_call) (skip : nat) : option pyval :=
  match rev_calls with
  | [] => None
  | Push x :: cs => match skip with O => Some x | S k => unmatched_push cs k end
  | Pop :: cs => unmatched_push cs (S skip)
  end.

Definition most_recent_unpopped (cs : list stack_call) : option pyval :=
  unmatched_push (reverse cs) 0.

(** ** Orders and the heap invariant *)

Section heap_order.
Context {A : Type} (less : A → A → bool).

(** [x <= y] as [heapq] sees it: not [y < x]. *)
Definition le_of (x y : A) : Prop := less y x = false.

(** The invariant of [heapq]: no item is smaller than its parent. *)
Definition is_heap (h : list A) : Prop :=
  ∀ i x p, (0 < i)%nat → h !! i = Some x → h !! heapq.parent_of i = Some p →
    le_of p x.

(** The invariant while the item at [pos] is in transit: every parent
    relation that does not involve [pos] holds, and the parent of [pos]
    is not above the children of [pos]. *)
Definition heap_but (h : list A) (pos : nat) : Prop :=
  (∀ i x p, (0 < i)%nat → i ≠ pos → heapq.parent_of i ≠ pos →
     h !! i = Some x → h !! heapq.parent_of i = Some p → le_of p x) ∧
  (∀ c x g, (0 < pos)%nat → (0 < c)%nat → heapq.parent_of c = pos →
     h !! c = Some x → h !! heapq.parent_of pos = Some g → le_of g x).

End heap_order.

(** [a <= b] on entries, and on priorities alone. *)
Definition tuple_le : relation entry := le_of tuple_lt.

(** ** Clients that interleave calls and go on after an exception *)

(** [try: m  except Exception as e: ...]: the call's answer, or the
    exception it raised; the object keeps the state the call left it in,
    and the client goes on. *)
Definition attempt {S A} (m : M S A) : M S (result A) :=
  λ s, match m s with
       | Returns a s' => Returns (Ok a) s'
       | Raises e s' => Returns (Err e) s'
       end.

(** A call on a queue of either class. *)
Inductive queue_call : Type :=
  | Enqueue (element : pyval)
  | Dequeue
  | Front.

Definition queue_do (c : queue_call) : M queue.obj pyval :=
  match c with
  | Enqueue e => queue.enqueue e
  | Dequeue => queue.dequeue
  | Front => queue.front
  end.

Definition my_queue_do (c : queue_call) : M my_queue.obj pyval :=
  match c with
  | Enqueue e => my_queue.enqueue e
  | Dequeue => my_queue.dequeue
  | Front => my_queue.front
  end.

(** The call enqueues nothing that is not of type [ty]. *)
Definition enqueues_typed (ty : pytype) (c : queue_call) : Prop :=
  match c with
  | Enqueue e => type e = ty
  | Dequeue | Front => True
  end.

Global Instance enqueues_typed_dec ty c : Decision (enqueues_typed ty c).
Proof. destruct c; simpl; apply _. Defined.

(** The elements the calls enqueue, in order. *)
Definition enqueued (cs : list queue_call) : list pyval :=
  omap (λ c, match c with Enqueue e => Some e | _ => None end) cs.

(** The elements handed out by the [dequeue()] calls that found the queue
    non-empty, in order; [tr] holds, for each call, the queue it was made
    on and its answer. *)
Definition served (cs : list queue_call) (tr : list (queue.obj * pyval))
  : list pyval :=
  omap (λ '(c, (before, answer)),
          match c with
          | Dequeue =>
              if pylist.truthy (queue.queue before) then Some answer else None
          | _ => None
          end) (zip cs tr).

(** What a client of [queue] sees where a client of [my_queue] sees an
    exception: [None]. *)
Definition absent_as_None (r : result pyval) : pyval :=
  match r with
  | Ok v => v
  | Err _ => VNone
  end.

(** The answer is the [AssertionError] of a failed type check. *)
Definition rejected {A} (r : result A) : bool :=
  match r with
  | Err AssertionError => true
  | _ => false
  end.

(** A call on the heap: [heappush(heap, item)], which returns nothing, or
    [heappop(heap)]. *)
Inductive heap_call : Type :=
  | HeapPush (item : entry)
  | HeapPop.

Definition heap_do (c : heap_call) : M (list entry) (option entry) :=
  match c with
  | HeapPush e => heapq.heappush tuple_lt e;; mret None
  | HeapPop => x ← heapq.heappop tuple_lt; mret (Some x)
  end.

(** The same calls on a [PriorityQueue]: [put(item)] and [get()]. *)
Definition pq_do (c : heap_call)
  : M PriorityQueue.obj (PriorityQueue.answer (option entry)) :=
  match c with
  | HeapPush e => PriorityQueue.put e;; mret (PriorityQueue.Got None)
  | HeapPop =>
      a ← PriorityQueue.get;
      mret (match a with
            | PriorityQueue.Got x => PriorityQueue.Got (Some x)
            | PriorityQueue.Blocked => PriorityQueue.Blocked
            end)
  end.

(** *** A priority queue kept as a sorted list

    The reference the heap is compared with: the entries in increasing
    order, a push inserting the entry in its place and a pop taking the
    first. *)
Fixpoint insert_sorted (e : entry) (m : list entry) : list entry :=
  match m with
  | [] => [e]
  | x :: m' => if tuple_lt x e then x :: insert_sorted e m' else e :: m
  end.

Definition sorted_do (c : heap_call) (m : list entry)
  : result (option entry) * list entry :=
  match c with
  | HeapPush e => (Ok None, insert_sorted e m)
  | HeapPop =>
      match m with
      | [] => (Err (IndexError "pop from empty list"), [])
      | x :: m' => (Ok (Some x), m')
      end
  end.

Fixpoint sorted_run (cs : list heap_call) (m : list entry)
  : list (result (option entry)) * list entry :=
  match cs with
  | [] => ([], m)
  | c :: cs' =>
      let '(a, m1) := sorted_do c m in
      let '(answers, m2) := sorted_run cs' m1 in
      (a :: answers, m2)
  end.

(** ** SECTION 1: dictionaries of [collections]

    The source builds a [defaultdict] on its function [default_value] and a
    [ChainMap] over [dict1] and [dict2].  The keys it uses are strings.
    The methods of the two library classes are embedded with their Python
    text beside them. *)

Module pydict.

(** A [dict] with string keys. *)
Abbreviation dict := (gmap string pyval).

(** What the [KeyError] was raised with: the key itself, or the message of
    [ChainMap.__delitem__] about the key. *)
Inductive KeyError_arg : Type :=
  | the_key (key : string)
  | not_in_first_mapping (key : string).

(** The answer of a call that may raise [KeyError]. *)
Inductive lookup (A : Type) : Type :=
  | Found (a : A)
  | KeyError (arg : KeyError_arg).
Arguments Found {A} a.
Arguments KeyError {A} arg.

(** [d[key]]. *)
Definition getitem (d : dict) (key : string) : lookup pyval :=
  match d !! key with
  | Some v => Found v
  | None => KeyError (the_key key)
  end.

(** [del d[key]]. *)
Definition delitem (d : dict) (key : string) : lookup dict :=
  match d !! key with
  | Some _ => Found (delete key d)
  | None => KeyError (the_key key)
  end.

End pydict.

(** [default_value()]. *)
Definition default_value (_ : unit) : pyval := VStr "Not Present".

Module defaultdict.

(** An instance: the callable given to the constructor, if any, and the
    items. *)
Record obj : Type :=
  mk { default_factory : option (unit → pyval); items : pydict.dict }.

(** [defaultdict(default_factory)]. *)
Definition __init__ (default_factory : option (unit → pyval)) : obj :=
  mk default_factory ∅.

(** [d[key] = value]. *)
Definition __setitem__ (key : string) (value : pyval) (self : obj) : obj :=
  mk (default_factory self) (<[key:=value]> (items self)).

(** [__missing__(self, key)].
<<
    if self.default_factory is None:
        raise KeyError(key)
    self[key] = value = self.default_factory()
    return value
>> *)
Definition __missing__ (key : string) (self : obj) : pydict.lookup pyval * obj :=
  match default_factory self with
  | None => (pydict.KeyError (pydict.the_key key), self)
  | Some f =>
      let value := f () in
      (pydict.Found value, __setitem__ key value self)
  end.

(** [d[key]]: the item if the key is there, else [__missing__(key)]. *)
Definition __getitem__ (key : string) (self : obj) : pydict.lookup pyval * obj :=
  match items self !! key with
  | Some v => (pydict.Found v, self)
  | None => __missing__ key self
  end.

(** [len(d)]. *)
Definition __len__ (self : obj) : Z := Z.of_nat (size (items self)).

End defaultdict.

(** [my_default_dict = defaultdict(default_value)], then
    [my_default_dict['first_key'] = 'Present']. *)
Definition my_default_dict : defaultdict.obj :=
  defaultdict.__setitem__ "first_key" (VStr "Present")
    (defaultdict.__init__ (Some default_value)).

Module ChainMap.

(** The dictionaries of the program, each at its address: a [ChainMap]
    holds the dictionaries it was given, not copies of them. *)
Abbreviation objects := (list pydict.dict).

(** An instance: [self.maps], the addresses of its mappings. *)
Record obj : Type := mk { maps : list nat }.

(** [ChainMap(m1, m2, ...)], for the mappings at the addresses [maps].
<<
    self.maps = list(maps) or [{}]
>> *)
Definition __init__ (maps : list nat) (store : objects) : obj * objects :=
  match maps with
  | [] => (mk [length store], store ++ [∅])
  | _ :: _ => (mk maps, store)
  end.

(** The loop of [__getitem__] over the mappings left to search. *)
Fixpoint search (ms : list nat) (key : string) (store : objects)
  : pydict.lookup pyval :=
  match ms with
  | [] => pydict.KeyError (pydict.the_key key)
  | a :: ms' =>
      match pydict.getitem (default ∅ (store !! a)) key with
      | pydict.Found v => pydict.Found v
      | pydict.KeyError _ => search ms' key store
      end
  end.

(** [chain[key]].
<<
    for mapping in self.maps:
        try:
            return mapping[key]
        except KeyError:
            pass
    return self.__missing__(key)     # raise KeyError(key)
>> *)
Definition __getitem__ (key : string) (self : obj) (store : objects)
  : pydict.lookup pyval :=
  search (maps self) key store.

(** The address of [self.maps[0]]; [maps] is never empty. *)
Definition first_mapping (self : obj) : nat := default 0%nat (head (maps self)).

(** [chain[key] = value].
<<
    self.maps[0][key] = value
>> *)
Definition __setitem__ (key : string) (value : pyval) (self : obj)
    (store : objects) : objects :=
  let a := first_mapping self in
  <[a := <[key:=value]> (default ∅ (store !! a))]> store.

(** [del chain[key]].
<<
    try:
        del self.maps[0][key]
    except KeyError:
        raise KeyError(f'Key not found in the first mapping: {key!r}')
>> *)
Definition __delitem__ (key : string) (self : obj) (store : objects)
  : pydict.lookup objects :=
  let a := first_mapping self in
  match pydict.delitem (default ∅ (store !! a)) key with
  | pydict.Found d => pydict.Found (<[a := d]> store)
  | pydict.KeyError _ => pydict.KeyError (pydict.not_in_first_mapping key)
  end.

(** The chain only names dictionaries that exist. *)
Definition well_formed (self : obj) (store : objects) : Prop :=
  maps self ≠ [] ∧ Forall (λ a, a < length store)%nat (maps self).

End ChainMap.

(** [dict1], [dict2] and [chain_map = ChainMap(dict1, dict2)]. *)
Definition dict1 : pydict.dict := {[ "one" := VInt 1; "two" := VInt 2 ]}.
Definition dict2 : pydict.dict := {[ "three" := VInt 3; "four" := VInt 4 ]}.
Definition dicts : ChainMap.objects := [dict1; dict2].
Definition chain_map : ChainMap.obj := (ChainMap.__init__ [0; 1]%nat dicts).1.

(** * Proofs *)

(** ** Running method bodies *)

Lemma bind_returns {S A B} (m : M S A) (k : A → M S B) s a s' :
  m s = Returns a s' → (m ≫= k) s = k a s'.
Proof. intros H. unfold mbind, M_bind, bind. by rewrite H. Qed.

Lemma bind_raises {S A B} (m : M S A) (k : A → M S B) s e s' :
  m s = Raises e s' → (m ≫= k) s = Raises e s'.
Proof. intros H. unfold mbind, M_bind, bind. by rewrite H. Qed.

Lemma bind_unfold {S A B} (m : M S A) (k : A → M S B) s :
  (m ≫= k) s =
  match m s with Returns a s' => k a s' | Raises e s' => Raises e s' end.
Proof. reflexivity. Qed.

(** Unfold the monad so that a body applied to a state computes. *)
Ltac run :=
  unfold mbind, mret, M_bind, M_ret, bind, ret, gets, modify, raise, lift,
    assert_, return_None in *; simpl in *.

(** ** The class [stack] *)

Lemma truthy_snoc {A} (l : list A) x : pylist.truthy (l ++ [x]) = true.
Proof. by destruct l. Qed.

Lemma pylist_pop_snoc {A} (l : list A) x : pylist.pop (l ++ [x]) = Ok (x, l).
Proof. unfold pylist.pop. by rewrite last_snoc, removelast_last. Qed.

Lemma stack_pop_snoc l x :
  stack.pop (stack.mk (l ++ [x])) = Returns VNone (stack.mk l).
Proof.
  unfold stack.pop. run. by rewrite truthy_snoc, pylist_pop_snoc.
Qed.

Lemma stack_top_snoc l x :
  stack.top (stack.mk (l ++ [x])) = Returns x (stack.mk (l ++ [x])).
Proof.
  unfold stack.top, pylist.getlast. run. by rewrite truthy_snoc, last_snoc.
Qed.

Lemma stack_cases (s : stack.obj) :
  s = stack.mk [] ∨ ∃ l x, s = stack.mk (l ++ [x]).
Proof.
  destruct s as [l]. destruct (decide (l = [])) as [->|Hne]; [by left|right].
  apply last_is_Some in Hne as [x Hx]. apply last_Some in Hx as [l' ->]. eauto.
Qed.

(** C6. [pop()] removes the top element of a non-empty stack and does
    nothing to an empty one, and in both cases returns [None], never the
    popped element; [top()] returns the top element of a non-empty stack
    and [None] for an empty one, and leaves the stack as it was; neither
    call ever raises. *)
Theorem stack_silent_absence :
  (∀ l x, stack.pop (stack.mk (l ++ [x])) = Returns VNone (stack.mk l)) ∧
  stack.pop (stack.mk []) = Returns VNone (stack.mk []) ∧
  (∀ l x, stack.top (stack.mk (l ++ [x])) = Returns x (stack.mk (l ++ [x]))) ∧
  stack.top (stack.mk []) = Returns VNone (stack.mk []) ∧
  (∀ s, ∃ s', stack.pop s = Returns VNone s') ∧
  (∀ s, ∃ v, stack.top s = Returns v s).
Proof.
  split_and!; try reflexivity.
  - apply stack_pop_snoc.
  - apply stack_top_snoc.
  - intros s. destruct (stack_cases s) as [->|(l & x & ->)].
    + by exists (stack.mk []).
    + exists (stack.mk l). apply stack_pop_snoc.
  - intros s. destruct (stack_cases s) as [->|(l & x & ->)].
    + by exists VNone.
    + exists x. apply stack_top_snoc.
Qed.

(** C7. For every stack and every naive queue, [is_empty()] returns [True]
    exactly when [size()] returns 0, and neither call changes the
    object. *)
Theorem is_empty_iff_size_0 :
  (∀ s : stack.obj, ∃ b n,
     stack.is_empty s = Returns b s ∧ stack.size s = Returns n s ∧
     (b = true ↔ n = 0)) ∧
  (∀ q : queue.obj, ∃ b n,
     queue.is_empty q = Returns b q ∧ queue.size q = Returns n q ∧
     (b = true ↔ n = 0)).
Proof.
  split.
  - intros [l]. exists (negb (pylist.truthy l)), (pylist.len l).
    unfold stack.is_empty, stack.size. run.
    unfold pylist.len. destruct l; simpl; split_and!; try done; lia.
  - intros [l]. exists (bool_decide (pylist.len l = 0)), (pylist.len l).
    unfold queue.is_empty, queue.size. run.
    split_and!; try done. apply bool_decide_eq_true.
Qed.

(** C9. On an empty naive queue, [dequeue()] and [front()] both return
    [None] without raising, and the queue, hence its [size()], is what it
    was before the call. *)
Theorem queue_empty_silent (q : queue.obj) (Hq : queue.queue q = []) :
  queue.dequeue q = Returns VNone q ∧
  queue.front q = Returns VNone q ∧
  queue.size q = Returns 0 q.
Proof. destruct q as [l]. simpl in Hq. subst l. by split_and!. Qed.

Lemma queue_empty_silent_witness :
  queue.dequeue queue.__init__ = Returns VNone queue.__init__ ∧
  queue.front queue.__init__ = Returns VNone queue.__init__ ∧
  queue.size queue.__init__ = Returns 0 queue.__init__.
Proof. apply (queue_empty_silent queue.__init__). reflexivity. Defined.

(** ** The class [my_queue] *)

(** C3. Enqueueing a value whose runtime type is not the queue's
    [element_type] fails, with the error of the failed [assert], and the
    queue (its deque and its [element_type]) is what it was before the
    call. *)
Theorem my_queue_enqueue_type_mismatch (q : my_queue.obj) (v : pyval)
    (Hty : type v ≠ my_queue.element_type q) :
  my_queue.enqueue v q = Raises AssertionError q.
Proof.
  unfold my_queue.enqueue. run.
  by rewrite bool_decide_eq_false_2.
Qed.

Lemma my_queue_enqueue_type_mismatch_witness :
  my_queue.enqueue (VInt 5) (my_queue.mk str [VStr "a"]) =
  Raises AssertionError (my_queue.mk str [VStr "a"]).
Proof. apply my_queue_enqueue_type_mismatch. simpl. discriminate. Defined.

(** C4. On an empty [my_queue], [dequeue()] and [front()] fail with the
    [IndexError] the class raises, and [heappop] on an empty heap fails
    with the [IndexError] of the list; each failing call leaves the
    container as it was. *)
Theorem empty_container_errors (q : my_queue.obj) (Hq : my_queue.queue q = []) :
  my_queue.dequeue q =
    Raises (IndexError "ERROR - Dequeue has been called on an empty queue.") q ∧
  my_queue.front q =
    Raises (IndexError "ERROR - Front has been called on an empty queue.") q ∧
  heapq.heappop tuple_lt pri_q_heap =
    Raises (IndexError "pop from empty list") pri_q_heap.
Proof. destruct q as [ty d]. simpl in Hq. subst d. by split_and!. Qed.

Lemma empty_container_errors_witness :
  my_queue.dequeue (my_queue.__init__ str) =
    Raises (IndexError "ERROR - Dequeue has been called on an empty queue.")
      (my_queue.__init__ str) ∧
  my_queue.front (my_queue.__init__ str) =
    Raises (IndexError "ERROR - Front has been called on an empty queue.")
      (my_queue.__init__ str) ∧
  heapq.heappop tuple_lt pri_q_heap =
    Raises (IndexError "pop from empty list") pri_q_heap.
Proof. apply (empty_container_errors (my_queue.__init__ str)). reflexivity. Defined.

(** ** Sequences of calls *)

Lemma for_each_snoc {S A B} (f : A → M S B) xs x s :
  for_each f (xs ++ [x]) s =
  match for_each f xs s with
  | Returns bs s' =>
      match f x s' with
      | Returns b s'' => Returns (bs ++ [b]) s''
      | Raises e s'' => Raises e s''
      end
  | Raises e s' => Raises e s'
  end.
Proof.
  revert s. induction xs as [|y xs IH]; intros s; simpl.
  - rewrite !bind_unfold. by destruct (f x s).
  - rewrite !bind_unfold. destruct (f y s) as [b s1|e s1]; [|done].
    rewrite !bind_unfold, IH.
    destruct (for_each f xs s1) as [bs s2|e s2]; [|done].
    unfold mret, M_ret, ret. by destruct (f x s2).
Qed.

(** ** FIFO order of [queue] and [my_queue] *)

Lemma queue_enqueue_all es l :
  for_each queue.enqueue es (queue.mk l) =
  Returns (const VNone <$> es) (queue.mk (l ++ es)).
Proof.
  revert l. induction es as [|e es IH]; intros l; simpl.
  - by rewrite app_nil_r.
  - rewrite bind_unfold. unfold queue.enqueue at 1. run.
    rewrite IH. unfold pylist.append. by rewrite <-app_assoc.
Qed.

Lemma queue_dequeue_all es rest :
  repeat_call queue.dequeue (length es) (queue.mk (es ++ rest)) =
  Returns es (queue.mk rest).
Proof.
  induction es as [|e es IH]; simpl; [done|].
  rewrite bind_unfold. unfold queue.dequeue at 1. run. by rewrite IH.
Qed.

Lemma my_queue_enqueue_all ty es d :
  Forall (λ e, type e = ty) es →
  for_each my_queue.enqueue es (my_queue.mk ty d) =
  Returns (const VNone <$> es) (my_queue.mk ty (d ++ es)).
Proof.
  intros Hes. revert d. induction Hes as [|e es He Hes IH]; intros d; simpl.
  - by rewrite app_nil_r.
  - rewrite bind_unfold. unfold my_queue.enqueue at 1. run.
    rewrite bool_decide_eq_true_2 by done. simpl.
    rewrite IH. unfold deque.append. by rewrite <-app_assoc.
Qed.

Lemma my_queue_dequeue_all ty es rest :
  repeat_call my_queue.dequeue (length es) (my_queue.mk ty (es ++ rest)) =
  Returns es (my_queue.mk ty rest).
Proof.
  induction es as [|e es IH]; simpl; [done|].
  rewrite bind_unfold. unfold my_queue.dequeue at 1, my_queue.empty. run.
  by rewrite IH.
Qed.

Lemma my_queue_enqueue_ill_typed ty es : ∀ d,
  ¬ Forall (λ e, type e = ty) es →
  ∃ q, for_each my_queue.enqueue es (my_queue.mk ty d) = Raises AssertionError q.
Proof.
  induction es as [|e es IH]; intros d Hes; [by destruct Hes|].
  simpl. rewrite bind_unfold. unfold my_queue.enqueue at 1. run.
  destruct (decide (type e = ty)) as [He|He].
  - rewrite bool_decide_eq_true_2 by done. simpl.
    destruct (IH (deque.append d e)) as [q Hq].
    { intros Hes'. apply Hes. by constructor. }
    exists q. by rewrite Hq.
  - rewrite bool_decide_eq_false_2 by done. simpl. by eexists.
Qed.

(** C1. Enqueueing [e1..en] on a fresh queue and then dequeueing [n] times
    returns [e1..en] in that order and leaves the queue empty.  For [queue]
    this holds for every sequence of elements, of whatever types; for
    [my_queue] it holds when every [ei] is of the queue's element type, so
    that on such inputs both classes give the same sequence of dequeued
    values; on any other input an enqueue on [my_queue] fails its
    [assert]. *)
Theorem fifo_law (es : list pyval) :
  queue_session es (length es) = Returns es (queue.mk []) ∧
  ∀ ty,
    (Forall (λ e, type e = ty) es →
     my_queue_session ty es (length es) = Returns es (my_queue.mk ty []) ∧
     my_queue_session ty es (length es) =
       match queue_session es (length es) with
       | Returns out q => Returns out (my_queue.mk ty (queue.queue q))
       | Raises e q => Raises e (my_queue.mk ty (queue.queue q))
       end) ∧
    (¬ Forall (λ e, type e = ty) es →
     ∃ q, my_queue_session ty es (length es) = Raises AssertionError q).
Proof.
  assert (queue_session es (length es) = Returns es (queue.mk [])) as Hnaive.
  { unfold queue_session, queue.__init__.
    rewrite (bind_returns _ _ _ _ _ (queue_enqueue_all es [])). simpl.
    rewrite <-(app_nil_r es) at 2. apply queue_dequeue_all. }
  split; [done|]. intros ty.
  unfold my_queue_session, my_queue.__init__, deque.new. split.
  - intros Htyped. rewrite Hnaive. simpl.
    rewrite (bind_returns _ _ _ _ _ (my_queue_enqueue_all ty es [] Htyped)).
    simpl. pose proof (my_queue_dequeue_all ty es []) as Hall.
    rewrite app_nil_r in Hall. by rewrite Hall.
  - intros Hill.
    destruct (my_queue_enqueue_ill_typed ty es [] Hill) as [q Hq].
    exists q. by rewrite (bind_raises _ _ _ _ _ Hq).
Qed.

Lemma fifo_law_witness :
  queue_session [VInt 1; VStr "a"; VNone; VInt 2] 4 =
    Returns [VInt 1; VStr "a"; VNone; VInt 2] (queue.mk []) ∧
  my_queue_session str [VStr "a"; VStr "b"; VStr "a"] 3 =
    Returns [VStr "a"; VStr "b"; VStr "a"] (my_queue.mk str []) ∧
  ∃ q, my_queue_session int [VInt 1; VStr "a"; VInt 2] 3 =
         Raises AssertionError q.
Proof.
  split_and!.
  - apply (fifo_law [VInt 1; VStr "a"; VNone; VInt 2]).
  - apply (fifo_law [VStr "a"; VStr "b"; VStr "a"]). repeat constructor.
  - apply (fifo_law [VInt 1; VStr "a"; VInt 2]).
    intros H. apply Forall_cons in H as [_ H]. by apply Forall_cons in H as [? _].
Defined.

(** ** Accounting of pushes and pops on [stack] *)

Lemma stack_step_push x l :
  stack_step (Push x) (stack.mk l) = Returns false (stack.mk (l ++ [x])).
Proof. reflexivity. Qed.

Lemma stack_step_pop_empty :
  stack_step Pop (stack.mk []) = Returns true (stack.mk []).
Proof. reflexivity. Qed.

Lemma stack_step_pop_snoc l x :
  stack_step Pop (stack.mk (l ++ [x])) = Returns false (stack.mk l).
Proof.
  unfold stack_step, stack.is_empty. run. rewrite truthy_snoc. simpl.
  by rewrite stack_pop_snoc.
Qed.

Lemma count_snoc {A} (P : A → Prop) `{!∀ x, Decision (P x)} (l : list A) x :
  Z.of_nat (length (filter P (l ++ [x]))) =
  Z.of_nat (length (filter P l)) + (if decide (P x) then 1 else 0).
Proof.
  rewrite filter_app, length_app. cbn. unfold filter. simpl.
  destruct (decide (P x)); simpl; lia.
Qed.

(** What a session leaves behind: as many answers as calls, a stack whose
    length is the pushes less the pops that removed an element, and whose
    elements, top first, are the pushes not matched by a later pop. *)
Lemma stack_session_inv (cs : list stack_call) :
  ∃ answers l,
    stack_session cs = Returns answers (stack.mk l) ∧
    Z.of_nat (length l) =
      push_count cs - (pop_count cs - noop_count answers) ∧
    noop_count answers ≤ pop_count cs ∧
    ∀ k, reverse l !! k = unmatched_push (reverse cs) k.
Proof.
  unfold stack_session, push_count, pop_count, noop_count.
  induction cs as [|c cs IH] using rev_ind.
  - exists [], []. split_and!; try done.
  - destruct IH as (answers & l & Hrun & Hlen & Hle & Htop).
    rewrite for_each_snoc, Hrun, !count_snoc, reverse_snoc.
    destruct c as [x|].
    + rewrite stack_step_push. exists (answers ++ [false]), (l ++ [x]).
      rewrite count_snoc, length_app, reverse_snoc. simpl.
      split_and!; [done|lia|lia|]. intros [|k]; [done|]. apply Htop.
    + destruct (stack_cases (stack.mk l)) as [[= ->]|(l' & y & [= ->])].
      * rewrite stack_step_pop_empty. exists (answers ++ [true]), [].
        rewrite count_snoc. simpl in *.
        split_and!; [done|lia|lia|]. intros k. rewrite <-Htop. done.
      * rewrite stack_step_pop_snoc. exists (answers ++ [false]), l'.
        rewrite count_snoc. rewrite length_app in Hlen. simpl in *.
        split_and!; [done|lia|lia|]. intros k. rewrite <-Htop.
        by rewrite reverse_snoc.
Qed.

Lemma stack_top_reverse l :
  stack.top (stack.mk l) = Returns (default VNone (reverse l !! 0%nat)) (stack.mk l).
Proof.
  destruct (stack_cases (stack.mk l)) as [[= ->]|(l' & y & [= ->])]; [done|].
  by rewrite stack_top_snoc, reverse_snoc.
Qed.

(** C5, as the code has it. After any sequence of pushes and pops on a
    fresh stack, [size()] is the number of pushes less the number of pops
    that removed an element (the pops that were not no-ops), and is never
    negative; [top()] returns the most recently pushed element not yet
    popped, or [None] when there is none; and a pop of an empty stack
    changes nothing. *)
Theorem stack_lifo_accounting (cs : list stack_call) :
  ∃ answers s,
    stack_session cs = Returns answers s ∧
    stack.size s =
      Returns (push_count cs - (pop_count cs - noop_count answers)) s ∧
    0 ≤ push_count cs - (pop_count cs - noop_count answers) ∧
    stack.top s = Returns (default VNone (most_recent_unpopped cs)) s ∧
    (stack.size s = Returns 0 s →
     stack.pop s = Returns VNone s ∧ stack_step Pop s = Returns true s).
Proof.
  destruct (stack_session_inv cs) as (answers & l & Hrun & Hlen & Hle & Htop).
  exists answers, (stack.mk l). split_and!; [done| | | |].
  - unfold stack.size, pylist.len. run. by rewrite Hlen.
  - lia.
  - unfold most_recent_unpopped. rewrite <-Htop. apply stack_top_reverse.
  - unfold stack.size, pylist.len. run. intros [= H0].
    destruct l; [done|]. simpl in H0. lia.
Qed.

(** C5 as stated fails: after one push and one pop that removes the pushed
    element, [size()] is 0, while the number of pushes less the number of
    no-op pops is 1. *)
Lemma stack_size_not_pushes_minus_noops :
  let cs := [Push (VInt 1); Pop] in
  stack_session cs = Returns [false; false] (stack.mk []) ∧
  stack.size (stack.mk []) = Returns 0 (stack.mk []) ∧
  push_count cs - noop_count [false; false] = 1 ∧
  stack.size (stack.mk []) ≠
    Returns (push_count cs - noop_count [false; false]) (stack.mk []).
Proof. split_and!; try reflexivity. discriminate. Qed.

(** ** The binary heap of [heapq] *)

Lemma parent_of_spec (i : nat) :
  (2 * heapq.parent_of i ≤ i - 1 < 2 * heapq.parent_of i + 2)%nat.
Proof.
  unfold heapq.parent_of. simpl. rewrite Nat.div2_div.
  pose proof (Nat.div_mod_eq (i - 1) 2).
  pose proof (Nat.mod_upper_bound (i - 1) 2). lia.
Qed.

(** Arithmetic on positions, knowing where the parents named lie. *)
Tactic Notation "parents" constr(i) := pose proof (parent_of_spec i).
Tactic Notation "parents" constr(i) constr(j) :=
  pose proof (parent_of_spec i); pose proof (parent_of_spec j).

Lemma getitem_Some {A} (h : list A) i x :
  h !! i = Some x → heapq.getitem i h = Returns x h.
Proof. intros H. unfold heapq.getitem, pylist.getitem. run. by rewrite H. Qed.

Lemma setitem_lt {A} (h : list A) i x :
  (i < length h)%nat → heapq.setitem i x h = Returns tt (<[i:=x]> h).
Proof.
  intros H. unfold heapq.setitem, pylist.setitem. run.
  by rewrite decide_True.
Qed.

(** Exchanging the items at two positions permutes the list. *)
Lemma insert_swap_Permutation {A} (l : list A) i j a b :
  l !! i = Some a → l !! j = Some b → <[i:=b]> (<[j:=a]> l) ≡ₚ l.
Proof.
  intros Hi Hj. apply Permutation_inj. split; [by rewrite !length_insert|].
  pose proof (lookup_lt_Some _ _ _ Hi). pose proof (lookup_lt_Some _ _ _ Hj).
  exists (λ k, if decide (k = i) then j else if decide (k = j) then i else k).
  split.
  - intros k1 k2. repeat case_decide; intros; subst; congruence.
  - intros k. rewrite !list_lookup_insert, !length_insert.
    repeat case_decide; subst; try done; try lia; destruct_and?; try congruence.
Qed.

Lemma insert_move_Permutation {A} (h : list A) pos c x child :
  (pos < length h)%nat → pos ≠ c → h !! c = Some child →
  <[c:=x]> (<[pos:=child]> h) ≡ₚ <[pos:=x]> h.
Proof.
  intros Hpos Hne Hc.
  rewrite <-(list_insert_insert_eq h pos child x).
  apply insert_swap_Permutation.
  - by rewrite list_lookup_insert_ne.
  - by rewrite list_lookup_insert_eq.
Qed.

Section heap_proofs.
Context {A : Type} (less : A → A → bool).

(** What [heapq] needs of [<]: it is asymmetric, and [<=], its negation
    read backwards, is transitive. *)
Hypothesis less_asym : ∀ a b, less a b = true → less b a = false.
Hypothesis le_trans : ∀ a b c, le_of less a b → le_of less b c → le_of less a c.

Local Abbreviation le := (le_of less).
Local Abbreviation is_heap := (is_heap less).
Local Abbreviation heap_but := (heap_but less).

Lemma less_le a b : less a b = true → le a b.
Proof. apply less_asym. Qed.

Lemma siftdown_while_stop startpos pos newitem (h : list A) :
  ¬ (startpos < pos)%nat →
  heapq._siftdown_while less startpos pos newitem h = Returns pos h.
Proof.
  intros H. rewrite heapq._siftdown_while_equation_1.
  by destruct (decide (startpos < pos)%nat).
Qed.

Lemma siftdown_while_step startpos pos newitem (h : list A) parent :
  (startpos < pos)%nat → (pos < length h)%nat →
  h !! heapq.parent_of pos = Some parent →
  heapq._siftdown_while less startpos pos newitem h =
  if less newitem parent
  then heapq._siftdown_while less startpos (heapq.parent_of pos) newitem
         (<[pos:=parent]> h)
  else Returns pos h.
Proof.
  intros Hlt Hpos Hparent. rewrite heapq._siftdown_while_equation_1.
  destruct (decide (startpos < pos)%nat); [simpl|done].
  rewrite (bind_returns _ _ _ _ _ (getitem_Some _ _ _ Hparent)).
  destruct (less newitem parent); [|done].
  by rewrite (bind_returns _ _ _ _ _ (setitem_lt _ _ _ Hpos)).
Qed.

Lemma heap_but_insert h pos x : heap_but h pos → heap_but (<[pos:=x]> h) pos.
Proof.
  intros [H1 H2]. split.
  - intros i y p Hi Hne Hpne. rewrite !list_lookup_insert_ne by done.
    by apply H1.
  - intros c y g Hpos Hc Hcp. parents c pos.
    rewrite !list_lookup_insert_ne by lia. by apply H2.
Qed.

(** The loop of [_siftdown] moves the hole at [pos] towards the root until
    [newitem] fits in it. *)
Lemma siftdown_while_spec pos : ∀ (h : list A) newitem,
  (pos < length h)%nat → heap_but h pos →
  (∀ c x, (0 < c)%nat → heapq.parent_of c = pos → h !! c = Some x →
     le newitem x) →
  ∃ h' pos',
    heapq._siftdown_while less 0 pos newitem h = Returns pos' h' ∧
    (pos' < length h')%nat ∧
    is_heap (<[pos':=newitem]> h') ∧
    <[pos':=newitem]> h' ≡ₚ <[pos:=newitem]> h.
Proof.
  induction pos as [pos IH] using lt_wf_ind.
  intros h newitem Hpos [Hbut Hgrand] Hkids.
  destruct (decide (0 < pos)%nat) as [Hgt|Hzero].
  - parents pos.
    destruct (lookup_lt_is_Some_2 h (heapq.parent_of pos)) as [parent Hparent];
      [lia|].
    rewrite (siftdown_while_step _ _ _ _ _ Hgt Hpos Hparent).
    destruct (less newitem parent) eqn:Hless.
    + destruct (IH (heapq.parent_of pos) ltac:(lia) (<[pos:=parent]> h) newitem)
        as (h' & pos' & Hrun & Hlen & Hheap & Hperm).
      * rewrite length_insert. lia.
      * split.
        -- intros i x p Hi Hne Hpne.
           destruct (decide (i = pos)) as [->|Hipos]; [done|].
           rewrite list_lookup_insert_ne by done.
           destruct (decide (heapq.parent_of i = pos)) as [Hip|Hip].
           ++ rewrite Hip, list_lookup_insert_eq by done. intros Hx [= <-].
              by eapply Hgrand.
           ++ rewrite list_lookup_insert_ne by done. by apply Hbut.
        -- intros c x g Hppos Hc Hcp.
           parents (heapq.parent_of pos).
           rewrite (list_lookup_insert_ne _ pos (heapq.parent_of _)) by lia.
           intros Hx Hg.
           assert (le g parent) as Hgp by (eapply Hbut; [| | |done..]; lia).
           destruct (decide (c = pos)) as [->|Hcpos].
           ++ rewrite list_lookup_insert_eq in Hx by done.
              by injection Hx as <-.
           ++ rewrite list_lookup_insert_ne in Hx by done.
              eapply le_trans; [done|].
              eapply (Hbut c); [done|done|lia|done|by rewrite Hcp].
      * intros c x Hc Hcp.
        destruct (decide (c = pos)) as [->|Hcpos].
        -- rewrite list_lookup_insert_eq by done. intros [= <-].
           by apply less_le.
        -- rewrite list_lookup_insert_ne by done. intros Hx.
           eapply le_trans; [by apply less_le|].
           eapply (Hbut c); [done|done|lia|done|by rewrite Hcp].
      * exists h', pos'. split_and!; [done..|].
        rewrite Hperm. apply insert_move_Permutation; [done|lia|done].
    + exists h, pos. split_and!; [done..| |done].
      intros i x p Hi.
      destruct (decide (i = pos)) as [->|Hipos].
      * rewrite list_lookup_insert_eq, list_lookup_insert_ne by (done || lia).
        rewrite Hparent. by intros [= <-] [= <-].
      * rewrite list_lookup_insert_ne by done.
        destruct (decide (heapq.parent_of i = pos)) as [Hip|Hip].
        -- rewrite Hip, list_lookup_insert_eq by done. intros Hx [= <-].
           by eapply Hkids.
        -- rewrite list_lookup_insert_ne by done. by apply Hbut.
  - assert (pos = 0)%nat as -> by lia.
    rewrite siftdown_while_stop by lia.
    exists h, 0%nat. split_and!; [done..| |done].
    intros i x p Hi. rewrite list_lookup_insert_ne by lia.
    destruct (decide (heapq.parent_of i = 0)%nat) as [Hip|Hip].
    + rewrite Hip, list_lookup_insert_eq by done. intros Hx [= <-].
      by eapply Hkids.
    + rewrite list_lookup_insert_ne by done. apply Hbut; [done|lia|done].
Qed.

Lemma siftup_while_stop endpos pos childpos (h : list A) :
  ¬ (childpos < endpos)%nat →
  heapq._siftup_while less endpos pos childpos h = Returns pos h.
Proof.
  intros H. rewrite heapq._siftup_while_equation_1.
  by destruct (decide (childpos < endpos)%nat).
Qed.

Lemma siftup_while_step endpos pos childpos (h : list A) :
  (childpos < endpos)%nat →
  heapq._siftup_while less endpos pos childpos h =
  (take_right ←
     (if decide (childpos + 1 < endpos)%nat then
        l ← heapq.getitem childpos; r ← heapq.getitem (childpos + 1)%nat;
        mret (negb (less l r))
      else mret false);
   let c := if take_right : bool then (childpos + 1)%nat else childpos in
   child ← heapq.getitem c;
   heapq.setitem pos child;;
   heapq._siftup_while less endpos c (2 * c + 1)%nat) h.
Proof.
  intros H. rewrite heapq._siftup_while_equation_1.
  by destruct (decide (childpos < endpos)%nat).
Qed.

(** Moving the smaller child [c] of [pos] up into [pos] moves the hole
    down to [c]. *)
Lemma heap_but_move_up (h : list A) pos c child :
  (pos < length h)%nat → heapq.parent_of c = pos → (0 < c)%nat →
  h !! c = Some child →
  (∀ s y, (0 < s)%nat → heapq.parent_of s = pos → s ≠ c → h !! s = Some y →
     le child y) →
  heap_but h pos → heap_but (<[pos:=child]> h) c.
Proof.
  intros Hpos Hcp Hc Hchild Hsib [Hbut Hgrand]. parents c pos. split.
  - intros i x p Hi Hne Hpne.
    destruct (decide (i = pos)) as [->|Hipos].
    + rewrite list_lookup_insert_eq, list_lookup_insert_ne by (done || lia).
      intros [= <-] Hp. by eapply (Hgrand c).
    + rewrite list_lookup_insert_ne by done.
      destruct (decide (heapq.parent_of i = pos)) as [Hip|Hip].
      * rewrite Hip, list_lookup_insert_eq by done. intros Hx [= <-].
        by eapply Hsib.
      * rewrite list_lookup_insert_ne by done. by apply Hbut.
  - intros c' x g _ Hc' Hcp'. parents c'.
    rewrite Hcp, list_lookup_insert_eq, list_lookup_insert_ne by (done || lia).
    intros Hx [= <-].
    eapply (Hbut c'); [done|lia|lia|done|by rewrite Hcp'].
Qed.

(** The loop of [_siftup] moves the hole at [pos] down to a leaf, pulling
    the smaller child up at each step. *)
Lemma siftup_while_spec n : ∀ (h : list A) pos,
  (length h - pos)%nat = n → (pos < length h)%nat → heap_but h pos →
  ∃ h' pos',
    heapq._siftup_while less (length h) pos (2 * pos + 1)%nat h =
      Returns pos' h' ∧
    length h' = length h ∧
    (pos' < length h)%nat ∧
    (length h ≤ 2 * pos' + 1)%nat ∧
    heap_but h' pos' ∧
    ∀ x, <[pos':=x]> h' ≡ₚ <[pos:=x]> h.
Proof.
  induction n as [n IH] using lt_wf_ind.
  intros h pos Hn Hpos Hbut.
  destruct (decide (2 * pos + 1 < length h)%nat) as [Hkid|Hleaf]; last first.
  { rewrite siftup_while_stop by done.
    exists h, pos. split_and!; [done..|lia|done|done]. }
  rewrite siftup_while_step by done.
  destruct (lookup_lt_is_Some_2 h (2 * pos + 1)%nat) as [l Hl]; [done|].
  (* The smaller child [c], with what makes it the smaller one. *)
  assert (∃ c child take_right,
    (if decide (2 * pos + 1 + 1 < length h)%nat then
       l ← heapq.getitem (2 * pos + 1)%nat;
       r ← heapq.getitem (2 * pos + 1 + 1)%nat;
       mret (negb (less l r))
     else mret false) h = Returns take_right h ∧
    c = (if take_right : bool then 2 * pos + 1 + 1 else 2 * pos + 1)%nat ∧
    h !! c = Some child ∧
    ∀ s y, (0 < s)%nat → heapq.parent_of s = pos → s ≠ c → h !! s = Some y →
      le child y) as (c & child & take_right & Hchoose & Hc & Hchild & Hsib).
  { destruct (decide (2 * pos + 1 + 1 < length h)%nat) as [Hright|Hnoright].
    - destruct (lookup_lt_is_Some_2 h (2 * pos + 1 + 1)%nat) as [r Hr]; [done|].
      rewrite (bind_returns _ _ _ _ _ (getitem_Some _ _ _ Hl)).
      rewrite (bind_returns _ _ _ _ _ (getitem_Some _ _ _ Hr)).
      destruct (less l r) eqn:Hlr; simpl.
      + exists (2 * pos + 1)%nat, l, false. split_and!; [done..|].
        intros s y Hs Hsp Hne Hy. parents s.
        assert (s = 2 * pos + 1 + 1)%nat as -> by lia.
        rewrite Hr in Hy. injection Hy as <-. by apply less_le.
      + exists (2 * pos + 1 + 1)%nat, r, true. split_and!; [done..|].
        intros s y Hs Hsp Hne Hy. parents s.
        assert (s = 2 * pos + 1)%nat as -> by lia.
        rewrite Hl in Hy. by injection Hy as <-.
    - exists (2 * pos + 1)%nat, l, false. split_and!; [done..|].
      intros s y Hs Hsp Hne Hy. parents s.
      apply lookup_lt_Some in Hy. lia. }
  rewrite (bind_returns _ _ _ _ _ Hchoose). cbv zeta. rewrite <-Hc.
  rewrite (bind_returns _ _ _ _ _ (getitem_Some _ _ _ Hchild)).
  rewrite (bind_returns _ _ _ _ _ (setitem_lt _ _ _ Hpos)).
  pose proof (lookup_lt_Some _ _ _ Hchild) as Hclen.
  assert (heapq.parent_of c = pos ∧ 0 < c ∧ pos < c)%nat as (Hcp & Hc0 & Hposc).
  { parents c. destruct take_right; lia. }
  destruct (IH (length h - c)%nat ltac:(lia) (<[pos:=child]> h) c)
    as (h' & pos' & Hrun & Hlen & Hpos' & Hleaf' & Hbut' & Hperm).
  - by rewrite length_insert.
  - by rewrite length_insert.
  - by apply heap_but_move_up.
  - rewrite length_insert in *. exists h', pos'.
    split_and!; [done..|].
    intros x. rewrite Hperm. apply insert_move_Permutation; [done|lia|done].
Qed.

(** [_siftdown(heap, 0, pos)] on a heap that is in order except at
    [pos], where the item is not above its children. *)
Lemma siftdown_spec (h : list A) pos newitem :
  h !! pos = Some newitem → heap_but h pos →
  (∀ c x, (0 < c)%nat → heapq.parent_of c = pos → h !! c = Some x →
     le newitem x) →
  ∃ h', heapq._siftdown less 0 pos h = Returns () h' ∧ is_heap h' ∧ h' ≡ₚ h.
Proof.
  intros Hnew Hbut Hkids. pose proof (lookup_lt_Some _ _ _ Hnew) as Hpos.
  destruct (siftdown_while_spec pos h newitem Hpos Hbut Hkids)
    as (h' & pos' & Hrun & Hlen & Hheap & Hperm).
  exists (<[pos':=newitem]> h'). unfold heapq._siftdown.
  rewrite (bind_returns _ _ _ _ _ (getitem_Some _ _ _ Hnew)).
  rewrite (bind_returns _ _ _ _ _ Hrun).
  rewrite setitem_lt by done. split_and!; [done..|].
  by rewrite Hperm, list_insert_id.
Qed.

(** [_siftup(heap, 0)] on a heap that is in order except at the root. *)
Lemma siftup_spec (h : list A) :
  h ≠ [] → heap_but h 0 →
  ∃ h', heapq._siftup less 0 h = Returns () h' ∧ is_heap h' ∧ h' ≡ₚ h.
Proof.
  intros Hne Hbut. destruct h as [|newitem h0]; [done|].
  set (h := newitem :: h0) in *.
  assert (0 < length h)%nat as Hpos by (simpl; lia).
  destruct (siftup_while_spec (length h - 0) h 0%nat eq_refl Hpos Hbut)
    as (h1 & pos1 & Hrun & Hlen & Hpos1 & Hleaf & Hbut1 & Hperm).
  destruct (siftdown_spec (<[pos1:=newitem]> h1) pos1 newitem)
    as (h2 & Hrun2 & Hheap & Hperm2).
  { apply list_lookup_insert_eq. lia. }
  { by apply heap_but_insert. }
  { intros c x Hc Hcp Hx. apply lookup_lt_Some in Hx.
    rewrite length_insert in Hx. parents c. lia. }
  exists h2. unfold heapq._siftup, heapq.len.
  rewrite (bind_returns _ _ _ (length h) h) by done. cbv zeta.
  rewrite (bind_returns _ _ _ newitem h) by done.
  rewrite (bind_returns _ _ _ _ _ Hrun).
  rewrite (bind_returns _ _ _ _ _ (setitem_lt h1 pos1 newitem ltac:(lia))).
  split_and!; [done..|].
  rewrite Hperm2, Hperm. by rewrite list_insert_id.
Qed.

Lemma le_refl a : le a a.
Proof.
  unfold le_of. destruct (less a a) eqn:H; [|done].
  by rewrite (less_asym _ _ H) in H.
Qed.

Lemma is_heap_nil : is_heap [].
Proof. by intros i x p _ ?. Qed.

(** The root of a heap is not above any item of the heap. *)
Lemma heap_root_min (h : list A) r :
  is_heap h → h !! 0%nat = Some r → Forall (le r) h.
Proof.
  intros Hheap Hr. apply Forall_lookup. intros i.
  induction i as [i IH] using lt_wf_ind. intros x Hx.
  destruct (decide (i = 0%nat)) as [->|Hi].
  - rewrite Hr in Hx. injection Hx as <-. apply le_refl.
  - parents i. pose proof (lookup_lt_Some _ _ _ Hx).
    destruct (lookup_lt_is_Some_2 h (heapq.parent_of i)) as [p Hp]; [lia|].
    eapply le_trans; [apply (IH (heapq.parent_of i)); [lia|done]|].
    eapply Hheap; [|done..]. lia.
Qed.

(** [heappush] keeps the heap a heap and adds the item to it. *)
Lemma heappush_spec (h : list A) item :
  is_heap h →
  ∃ h', heapq.heappush less item h = Returns () h' ∧ is_heap h' ∧
        h' ≡ₚ item :: h.
Proof.
  intros Hheap.
  destruct (siftdown_spec (h ++ [item]) (length h) item)
    as (h' & Hrun & Hheap' & Hperm).
  - apply list_lookup_middle. done.
  - split.
    + intros i x p Hi Hne Hpne Hx Hp. parents i.
      apply lookup_lt_Some in Hx as Hlt. rewrite length_app in Hlt.
      simpl in Hlt. rewrite lookup_app_l in Hx, Hp by lia.
      by eapply Hheap.
    + intros c x g _ Hc Hcp Hx. parents c.
      apply lookup_lt_Some in Hx. rewrite length_app in Hx. simpl in Hx. lia.
  - intros c x Hc Hcp Hx. parents c.
    apply lookup_lt_Some in Hx. rewrite length_app in Hx. simpl in Hx. lia.
  - exists h'. unfold heapq.heappush, heapq.len. run.
    unfold pylist.append. rewrite length_app. simpl.
    replace (length h + 1 - 1)%nat with (length h) by lia.
    rewrite Hrun. split_and!; [done..|].
    rewrite Hperm. by rewrite Permutation_app_comm.
Qed.

(** [heappop] on a non-empty heap returns its root, which is not above
    any item of the heap, and keeps the rest a heap. *)
Lemma heappop_spec (h : list A) :
  is_heap h → h ≠ [] →
  ∃ x h', heapq.heappop less h = Returns x h' ∧ is_heap h' ∧
          h ≡ₚ x :: h' ∧ Forall (le x) h.
Proof.
  intros Hheap Hne.
  apply last_is_Some in Hne as [lastelt Hlast].
  apply last_Some in Hlast as [l ->].
  assert (heapq.pop_last (l ++ [lastelt]) = Returns lastelt l) as Hpop.
  { unfold heapq.pop_last. run. by rewrite pylist_pop_snoc. }
  unfold heapq.heappop. rewrite (bind_returns _ _ _ _ _ Hpop).
  rewrite (bind_returns _ _ _ l l) by done.
  destruct l as [|returnitem l0]; simpl.
  - exists lastelt, []. split_and!; [done|apply is_heap_nil|done|].
    apply Forall_singleton, le_refl.
  - destruct (siftup_spec (lastelt :: l0)) as (h' & Hrun & Hheap' & Hperm).
    + done.
    + split; [|intros; lia].
      intros [|i] x p Hi Hne Hpne; [lia|]. parents (S i).
      destruct (heapq.parent_of (S i)) as [|j] eqn:Hj; [done|].
      simpl. intros Hx Hp.
      apply (Hheap (S i) x p); [lia| |].
      * simpl. apply lookup_lt_Some in Hx as Hlt.
        by rewrite lookup_app_l.
      * rewrite Hj. simpl. apply lookup_lt_Some in Hp as Hlt.
        by rewrite lookup_app_l.
    + exists returnitem, h'. run.
      rewrite Hrun. split_and!; [done..| |].
      * by rewrite Hperm, <-Permutation_cons_append.
      * by apply heap_root_min.
Qed.

Lemma heappop_nil :
  heapq.heappop less [] = Raises (IndexError "pop from empty list") [].
Proof. reflexivity. Qed.

(** Pushing a sequence of items on a heap. *)
Lemma push_all_spec (es : list A) : ∀ h,
  is_heap h →
  ∃ h', for_each (heapq.heappush less) es h = Returns (const () <$> es) h' ∧
        is_heap h' ∧ h' ≡ₚ es ++ h.
Proof.
  induction es as [|e es IH]; intros h Hheap; simpl.
  - by exists h.
  - destruct (heappush_spec h e Hheap) as (h1 & Hrun1 & Hheap1 & Hperm1).
    destruct (IH h1 Hheap1) as (h2 & Hrun2 & Hheap2 & Hperm2).
    exists h2. rewrite (bind_returns _ _ _ _ _ Hrun1).
    rewrite (bind_returns _ _ _ _ _ Hrun2). split_and!; [done..|].
    rewrite Hperm2, Hperm1. by rewrite Permutation_middle.
Qed.

(** Popping [n] items off a heap that holds at least [n]: each popped item
    is not above any item the heap held when it was popped, and what was
    popped together with what is left is what the heap held. *)
Lemma pop_n_spec (n : nat) : ∀ h,
  is_heap h → (n ≤ length h)%nat →
  ∃ tr h',
    repeat_call (observe (heapq.heappop less)) n h = Returns tr h' ∧
    length tr = n ∧ is_heap h' ∧ tr.*2 ++ h' ≡ₚ h ∧
    StronglySorted le (tr.*2) ∧
    ∀ i held x, tr !! i = Some (held, x) →
      held ≡ₚ drop i (tr.*2) ++ h' ∧ Forall (le x) held.
Proof.
  induction n as [|n IH]; intros h Hheap Hn; simpl.
  - exists [], h. split_and!; try done; constructor.
  - assert (h ≠ []) as Hne by (intros ->; simpl in Hn; lia).
    destruct (heappop_spec h Hheap Hne)
      as (x & h1 & Hrun1 & Hheap1 & Hperm1 & Hmin).
    destruct (IH h1 Hheap1) as (tr & h2 & Hrun2 & Hlen & Hheap2 & Hperm2 & Hsorted & Hobs).
    { apply Permutation_length in Hperm1. simpl in Hperm1. lia. }
    exists ((h, x) :: tr), h2.
    assert (observe (heapq.heappop less) h = Returns (h, x) h1) as Hobs1.
    { unfold observe. run. by rewrite Hrun1. }
    rewrite (bind_returns _ _ _ _ _ Hobs1), (bind_returns _ _ _ _ _ Hrun2).
    simpl.
    assert (h ≡ₚ x :: tr.*2 ++ h2) as Hall by (by rewrite Hperm2).
    split_and!; [done|by rewrite Hlen|done|done| |].
    + constructor; [done|].
      rewrite Hall in Hmin. apply Forall_cons in Hmin as [_ Hmin].
      by apply Forall_app in Hmin as [? _].
    + intros [|i] held y; simpl.
      * intros [= <- <-]. done.
      * apply Hobs.
Qed.


End heap_proofs.

Lemma observe_unfold {S A} (m : M S A) s :
  observe m s =
  match m s with
  | Returns a s' => Returns (s, a) s'
  | Raises e s' => Raises e s'
  end.
Proof. unfold observe. run. by destruct (m s). Qed.

Lemma repeat_call_observe {S A} (m : M S A) n s :
  repeat_call m n s =
  match repeat_call (observe m) n s with
  | Returns tr s' => Returns (tr.*2) s'
  | Raises e s' => Raises e s'
  end.
Proof.
  revert s. induction n as [|n IH]; intros s; [done|]. simpl.
  rewrite !bind_unfold, observe_unfold.
  destruct (m s) as [a s1|e s1]; [|done].
  rewrite !bind_unfold, IH. by destruct (repeat_call (observe m) n s1).
Qed.

(** ** The order of tuples [(priority, payload)] *)

Lemma ascii_compare_Lt_trans a b c :
  Ascii.compare a b = Lt → Ascii.compare b c = Lt → Ascii.compare a c = Lt.
Proof. unfold Ascii.compare. rewrite !N.compare_lt_iff. lia. Qed.

Lemma string_compare_Lt_trans a : ∀ b c,
  String.compare a b = Lt → String.compare b c = Lt → String.compare a c = Lt.
Proof.
  induction a as [|x a IH]; intros [|y b] [|z c]; simpl; try done.
  destruct (Ascii.compare x y) eqn:Hxy; [|clear IH|done].
  - apply Ascii.compare_eq_iff in Hxy as ->.
    destruct (Ascii.compare y z); [apply IH|done..].
  - destruct (Ascii.compare y z) eqn:Hyz; [| |done]; intros _ _.
    + apply Ascii.compare_eq_iff in Hyz as <-. by rewrite Hxy.
    + by rewrite (ascii_compare_Lt_trans _ _ _ Hxy Hyz).
Qed.


Lemma string_ltb_asym a b : String.ltb a b = true → String.ltb b a = false.
Proof.
  unfold String.ltb. rewrite (String.compare_antisym b a).
  by destruct (String.compare a b).
Qed.

Lemma string_not_ltb_trans a b c :
  String.ltb b a = false → String.ltb c b = false → String.ltb c a = false.
Proof.
  unfold String.ltb. intros Hba Hcb.
  destruct (String.compare c a) eqn:Hca; try done.
  destruct (String.compare b a) eqn:Hba'; try done.
  - apply String.compare_eq_iff in Hba' as ->. by rewrite Hca in Hcb.
  - rewrite String.compare_antisym in Hba'.
    destruct (String.compare a b) eqn:Hab; try done.
    by rewrite (string_compare_Lt_trans _ _ _ Hca Hab) in Hcb.
Qed.

Lemma tuple_lt_asym a b : tuple_lt a b = true → tuple_lt b a = false.
Proof.
  unfold tuple_lt. destruct a as [p s], b as [q t]; simpl.
  destruct (Z.eqb_spec p q), (Z.eqb_spec q p); try congruence.
  - apply string_ltb_asym.
  - lia.
Qed.

Lemma tuple_le_trans a b c : tuple_le a b → tuple_le b c → tuple_le a c.
Proof.
  unfold tuple_le, le_of, tuple_lt.
  destruct a as [p s], b as [q t], c as [r u]; simpl.
  destruct (Z.eqb_spec q p), (Z.eqb_spec r q), (Z.eqb_spec r p);
    try lia; try done.
  apply string_not_ltb_trans.
Qed.

(** Entries that are [<=] each other are the same entry. *)
Global Instance tuple_le_antisym : AntiSymm (=) tuple_le.
Proof.
  intros [p s] [q t]. unfold tuple_le, le_of, tuple_lt. simpl.
  destruct (Z.eqb_spec q p), (Z.eqb_spec p q); try lia. subst q.
  unfold String.ltb. intros Hts Hst. f_equal.
  rewrite String.compare_antisym in Hts.
  destruct (String.compare s t) eqn:Hc; try done.
  by apply String.compare_eq_iff.
Qed.


Lemma tuple_le_payload a b :
  tuple_le a b → fst a = fst b → String.leb (snd a) (snd b) = true.
Proof.
  unfold tuple_le, le_of, tuple_lt. intros H Heq.
  rewrite Heq, Z.eqb_refl in H. unfold String.ltb, String.leb in *.
  rewrite String.compare_antisym. by destruct (String.compare (snd b) (snd a)).
Qed.


Lemma StronglySorted_lookup {A} (R : relation A) l i j a b :
  StronglySorted R l → (i < j)%nat → l !! i = Some a → l !! j = Some b →
  R a b.
Proof.
  intros Hl. revert i j. induction Hl as [|x l Hl IH Hx]; intros i j Hij; [done|].
  destruct j as [|j]; [lia|]. destruct i as [|i]; simpl.
  - intros [= <-] Hb. rewrite Forall_forall in Hx.
    apply Hx. by eapply list_elem_of_lookup_2.
  - apply IH. lia.
Qed.

(** ** The priority queue [pri_q_heap] *)

Lemma pri_q_pushes (es : list entry) :
  ∃ h, for_each (heapq.heappush tuple_lt) es pri_q_heap =
         Returns (const () <$> es) h ∧
       is_heap tuple_lt h ∧ h ≡ₚ es.
Proof.
  destruct (push_all_spec tuple_lt tuple_lt_asym tuple_le_trans es [])
    as (h & Hrun & Hheap & Hperm); [apply is_heap_nil|].
  exists h. by rewrite app_nil_r in Hperm.
Qed.

(** ** [heapq] is [heapq_dyn] where the comparison always answers *)





Section heapq_dyn_map.
Context {A B : Type} (f : A → B).
Context (ltb : A → A → bool) (less : B → B → result bool).

(** On the items [f a], [less] always answers, as [ltb] does on the
    [a]. *)
Hypothesis less_f : ∀ a b, less (f a) (f b) = Ok (ltb a b).








End heapq_dyn_map.



(** ** The priority queue [pri_q_PQ] *)







(** The scenario of the source: push [(2, 'Sleep')], [(1, 'Eat')] and
    [(3, 'Work')]; they pop off as [(1, 'Eat')], [(2, 'Sleep')],
    [(3, 'Work')], from the heap and from the [PriorityQueue] alike. *)
Example pri_q_heap_scenario :
  heap_session [(2, "Sleep"); (1, "Eat"); (3, "Work")]%string 3 =
  Returns [(1, "Eat"); (2, "Sleep"); (3, "Work")]%string [].
Proof. vm_compute. reflexivity. Qed.

Example pri_q_PQ_scenario :
  (for_each PriorityQueue.put [(2, "Sleep"); (1, "Eat"); (3, "Work")]%string;;
   repeat_call PriorityQueue.get 4) pri_q_PQ =
  Returns [PriorityQueue.Got (1, "Eat"); PriorityQueue.Got (2, "Sleep");
           PriorityQueue.Got (3, "Work"); PriorityQueue.Blocked]%string
    (PriorityQueue.mk []).
Proof. vm_compute. reflexivity. Qed.

(** C10. What the pops return is determined by the entries pushed: pushing
    any entries and popping them all returns the pushed entries sorted by
    the order of the tuples, in which entries of equal priority come in the
    order of their payloads; so any two runs that push the same entries, in
    the same or in another order, pop the same sequence. *)
Theorem heap_extraction_determined (es : list entry) :
  ∃ out,
    heap_session es (length es) = Returns out [] ∧
    out ≡ₚ es ∧
    StronglySorted tuple_le out ∧
    (∀ i j a b, (i < j)%nat → out !! i = Some a → out !! j = Some b →
       fst a = fst b → String.leb (snd a) (snd b) = true) ∧
    (∀ es', es' ≡ₚ es → heap_session es' (length es') = Returns out []).
Proof.
  assert (∀ es : list entry, ∃ out,
    heap_session es (length es) = Returns out [] ∧ out ≡ₚ es ∧
    StronglySorted tuple_le out) as Hdrain.
  { clear es. intros es.
    destruct (pri_q_pushes es) as (h0 & Hpush & Hheap0 & Hperm0).
    pose proof (Permutation_length Hperm0) as Hlen0.
    destruct (pop_n_spec tuple_lt tuple_lt_asym tuple_le_trans (length es) h0
                Hheap0)
      as (tr & h & Hrun & Hlen & Hheap & Hperm & Hsorted & Hobs); [lia|].
    assert (h = []) as ->.
    { apply Permutation_length in Hperm.
      rewrite length_app, length_fmap in Hperm.
      apply length_zero_iff_nil. lia. }
    exists (tr.*2). unfold heap_session.
    rewrite (bind_returns _ _ _ _ _ Hpush), repeat_call_observe, Hrun.
    rewrite app_nil_r in Hperm. split_and!; [done| |done].
    by rewrite Hperm. }
  destruct (Hdrain es) as (out & Hrun & Hperm & Hsorted).
  exists out. split_and!; [done..| |].
  - intros i j a b Hij Ha Hb. apply tuple_le_payload.
    by eapply (StronglySorted_lookup tuple_le).
  - intros es' Hes'.
    destruct (Hdrain es') as (out' & Hrun' & Hperm' & Hsorted').
    rewrite Hrun'. f_equal.
    apply (StronglySorted_unique tuple_le); [done..|].
    by rewrite Hperm', Hperm.
Qed.

(** ** The scenarios of the specification *)

(** Push 1..5: [top()] is 5 and [size()] is 5; after a pop, [top()] is 4
    and [size()] is 4. *)
Example stack_scenario :
  let s5 := stack.__init__ (Some [VInt 1; VInt 2; VInt 3; VInt 4; VInt 5]) in
  let s4 := stack.mk [VInt 1; VInt 2; VInt 3; VInt 4] in
  stack.top s5 = Returns (VInt 5) s5 ∧ stack.size s5 = Returns 5 s5 ∧
  stack.pop s5 = Returns VNone s4 ∧
  stack.top s4 = Returns (VInt 4) s4 ∧ stack.size s4 = Returns 4 s4.
Proof. by split_and!. Qed.

(** A [my_queue] of [str]: [enqueue('a')] succeeds, [enqueue(5)] fails and
    changes nothing, [dequeue()] returns ['a'], and a second [dequeue()]
    fails on the empty queue. *)
Example my_queue_scenario :
  let q0 := my_queue.__init__ str in
  let q1 := my_queue.mk str [VStr "a"] in
  my_queue.enqueue (VStr "a") q0 = Returns VNone q1 ∧
  my_queue.enqueue (VInt 5) q1 = Raises AssertionError q1 ∧
  my_queue.dequeue q1 = Returns (VStr "a") q0 ∧
  my_queue.dequeue q0 =
    Raises (IndexError "ERROR - Dequeue has been called on an empty queue.") q0.
Proof. by split_and!. Qed.

(** * Further properties of the containers *)

Lemma for_each_cons {S A B} (f : A → M S B) x xs s :
  for_each f (x :: xs) s =
  match f x s with
  | Returns b s1 =>
      match for_each f xs s1 with
      | Returns bs s2 => Returns (b :: bs) s2
      | Raises e s2 => Raises e s2
      end
  | Raises e s1 => Raises e s1
  end.
Proof.
  simpl. rewrite bind_unfold. destruct (f x s) as [b s1|e s1]; [|done].
  rewrite bind_unfold. by destruct (for_each f xs s1).
Qed.

(** ** [stack]: the constructor, and push against pop *)

Lemma stack_push_all els l :
  for_each stack.push els (stack.mk l) =
  Returns (const VNone <$> els) (stack.mk (l ++ els)).
Proof.
  revert l. induction els as [|e els IH]; intros l.
  - by rewrite app_nil_r.
  - rewrite for_each_cons. unfold stack.push at 1. run.
    unfold pylist.append. by rewrite IH, <-app_assoc.
Qed.

(** X1. [stack(elements)] is the stack that pushing the elements in order
    on [stack()] builds: the first element is at the bottom, the last one
    is the top. *)
Theorem stack_init_is_pushes (elements : list pyval) :
  for_each stack.push elements (stack.__init__ None) =
    Returns (const VNone <$> elements) (stack.__init__ (Some elements)) ∧
  stack.top (stack.__init__ (Some elements)) =
    Returns (default VNone (last elements)) (stack.__init__ (Some elements)).
Proof.
  split; [apply stack_push_all|]. simpl.
  destruct (stack_cases (stack.mk elements)) as [[= ->]|(l & x & [= ->])];
    [done|].
  by rewrite stack_top_snoc, last_snoc.
Qed.

(** X2. A push followed by a pop leaves the stack exactly as it was, and
    between the two [top()] is the pushed element and [size()] is one
    more than before. *)
Theorem stack_push_pop_restores (s : stack.obj) (x : pyval) :
  ∃ s1 n,
    stack.push x s = Returns VNone s1 ∧
    stack.top s1 = Returns x s1 ∧
    stack.size s = Returns n s ∧ stack.size s1 = Returns (n + 1) s1 ∧
    stack.pop s1 = Returns VNone s ∧
    (stack.push x;; stack.pop) s = Returns VNone s.
Proof.
  destruct s as [l].
  exists (stack.mk (l ++ [x])), (pylist.len l).
  assert (stack.push x (stack.mk l) = Returns VNone (stack.mk (l ++ [x])))
    as Hpush by done.
  split_and!; [done|apply stack_top_snoc|done| |apply stack_pop_snoc|].
  - unfold stack.size, pylist.len. run. rewrite length_app. simpl.
    do 2 f_equal. lia.
  - rewrite (bind_returns _ _ _ _ _ Hpush). apply stack_pop_snoc.
Qed.

(** ** [queue] under any interleaving of its calls *)

Lemma queue_do_cases c l :
  queue_do c (queue.mk l) =
  match c with
  | Enqueue e => Returns VNone (queue.mk (l ++ [e]))
  | Dequeue =>
      match l with
      | x :: l' => Returns x (queue.mk l')
      | [] => Returns VNone (queue.mk [])
      end
  | Front =>
      match l with
      | x :: _ => Returns x (queue.mk l)
      | [] => Returns VNone (queue.mk [])
      end
  end.
Proof. destruct c, l; reflexivity. Qed.

Lemma queue_interleaved_inv (cs : list queue_call) :
  ∃ tr l,
    for_each (λ c, observe (queue_do c)) cs queue.__init__ =
      Returns tr (queue.mk l) ∧
    length tr = length cs ∧
    enqueued cs = served cs tr ++ l.
Proof.
  unfold enqueued, served.
  induction cs as [|c cs IH] using rev_ind.
  - by exists [], [].
  - destruct IH as (tr & l & Hrun & Hlen & Hfifo).
    rewrite for_each_snoc, Hrun, observe_unfold, queue_do_cases.
    assert (∀ x, zip (cs ++ [c]) (tr ++ [x]) = zip cs tr ++ [(c, x)]) as Hzip.
    { intros x. by rewrite zip_with_app by done. }
    rewrite omap_app, Hfifo. simpl.
    destruct c as [e| |]; [|destruct l as [|x l]..].
    + exists (tr ++ [(queue.mk l, VNone)]), (l ++ [e]).
      rewrite Hzip, omap_app, !length_app, Hlen. simpl.
      by rewrite app_nil_r, app_assoc.
    + exists (tr ++ [(queue.mk [], VNone)]), [].
      rewrite Hzip, omap_app, !length_app, Hlen. simpl.
      by rewrite !app_nil_r.
    + exists (tr ++ [(queue.mk (x :: l), x)]), l.
      rewrite Hzip, omap_app, !length_app, Hlen. simpl.
      by rewrite app_nil_r, <-app_assoc.
    + exists (tr ++ [(queue.mk [], VNone)]), [].
      rewrite Hzip, omap_app, !length_app, Hlen. simpl.
      by rewrite !app_nil_r.
    + exists (tr ++ [(queue.mk (x :: l), x)]), (x :: l).
      rewrite Hzip, omap_app, !length_app, Hlen. simpl.
      by rewrite !app_nil_r.
Qed.

(** X3. First in, first out under any interleaving: whatever sequence of
    [enqueue], [dequeue] and [front] calls is made on a fresh [queue], no
    call raises, and the elements enqueued are, in order, those handed out
    by the dequeues that found the queue non-empty followed by those still
    in the queue; so [size()] is the number of enqueues less the number of
    those dequeues. *)
Theorem queue_fifo_interleaved (cs : list queue_call) :
  ∃ tr q,
    for_each (λ c, observe (queue_do c)) cs queue.__init__ = Returns tr q ∧
    length tr = length cs ∧
    enqueued cs = served cs tr ++ queue.queue q ∧
    queue.size q =
      Returns (Z.of_nat (length (enqueued cs)) -
               Z.of_nat (length (served cs tr))) q.
Proof.
  destruct (queue_interleaved_inv cs) as (tr & l & Hrun & Hlen & Hfifo).
  exists tr, (queue.mk l). split_and!; [done..|].
  unfold queue.size, pylist.len. run. rewrite Hfifo, length_app.
  do 2 f_equal. lia.
Qed.

(** X4. The answer [None] of [dequeue()] does not tell an empty queue
    from a queue whose front element is [None]: [dequeue()] returns [None]
    exactly when the queue is empty or [None] is at its front, and only in
    the first case is the queue left as it was. *)
Theorem queue_dequeue_None_ambiguous (q : queue.obj) :
  ∃ v q',
    queue.dequeue q = Returns v q' ∧
    (v = VNone ↔ queue.queue q = [] ∨ head (queue.queue q) = Some VNone) ∧
    (q' = q ↔ queue.queue q = []).
Proof.
  destruct q as [[|x l]].
  - exists VNone, (queue.mk []). split_and!; [done|split; auto..].
  - exists x, (queue.mk l). split_and!; [done| |].
    + simpl. split; [intros ->; by right|]. by intros [|[= ->]].
    + simpl. split; [|done]. intros [= Hl].
      apply (f_equal length) in Hl. simpl in Hl. lia.
Qed.

(** ** [my_queue] under any interleaving of its calls *)

Lemma my_queue_do_cases c ty d :
  attempt (my_queue_do c) (my_queue.mk ty d) =
  match c with
  | Enqueue e =>
      if bool_decide (type e = ty)
      then Returns (Ok VNone) (my_queue.mk ty (d ++ [e]))
      else Returns (Err AssertionError) (my_queue.mk ty d)
  | Dequeue =>
      match d with
      | x :: d' => Returns (Ok x) (my_queue.mk ty d')
      | [] =>
          Returns
            (Err (IndexError "ERROR - Dequeue has been called on an empty queue."))
            (my_queue.mk ty [])
      end
  | Front =>
      match d with
      | x :: _ => Returns (Ok x) (my_queue.mk ty d)
      | [] =>
          Returns
            (Err (IndexError "ERROR - Front has been called on an empty queue."))
            (my_queue.mk ty [])
      end
  end.
Proof.
  destruct c as [e| |]; [|by destruct d..].
  unfold attempt, my_queue_do, my_queue.enqueue. run.
  by destruct (bool_decide (type e = ty)).
Qed.

Lemma my_queue_interleaved_inv (cs : list queue_call) : ∀ ty d,
  Forall (λ e, type e = ty) d →
  ∃ answers d',
    for_each (λ c, attempt (my_queue_do c)) cs (my_queue.mk ty d) =
      Returns answers (my_queue.mk ty d') ∧
    Forall (λ e, type e = ty) d' ∧
    for_each (λ c, attempt (my_queue_do c))
      (filter (enqueues_typed ty) cs) (my_queue.mk ty d) =
      Returns (filter (λ a, rejected a = false) answers)
        (my_queue.mk ty d').
Proof.
  induction cs as [|c cs IH]; intros ty d Hd.
  - by exists [], d.
  - rewrite for_each_cons, my_queue_do_cases.
    destruct c as [e| |]; [|destruct d as [|x d]..].
    + destruct (decide (type e = ty)) as [He|He].
      * rewrite bool_decide_eq_true_2 by done.
        destruct (IH ty (d ++ [e])) as (answers & d' & Hrun & Hd' & Hf).
        { apply Forall_app. by repeat constructor. }
        exists (Ok VNone :: answers), d'. rewrite Hrun.
        rewrite filter_cons_True by done.
        rewrite for_each_cons, my_queue_do_cases.
        rewrite bool_decide_eq_true_2 by done. rewrite Hf.
        by rewrite filter_cons_True by done.
      * rewrite bool_decide_eq_false_2 by done.
        destruct (IH ty d Hd) as (answers & d' & Hrun & Hd' & Hf).
        exists (Err AssertionError :: answers), d'. rewrite Hrun.
        rewrite filter_cons_False by done.
        by rewrite filter_cons_False by done.
    + destruct (IH ty [] Hd) as (answers & d' & Hrun & Hd' & Hf).
      eexists (_ :: answers), d'. rewrite Hrun.
      rewrite filter_cons_True by done.
      rewrite for_each_cons, my_queue_do_cases, Hf.
      split_and!; [done..|]. by rewrite filter_cons_True by done.
    + apply Forall_cons in Hd as Hd2. destruct Hd2 as [_ Hd2].
      destruct (IH ty d Hd2) as (answers & d' & Hrun & Hd' & Hf).
      eexists (_ :: answers), d'. rewrite Hrun.
      rewrite filter_cons_True by done.
      rewrite for_each_cons, my_queue_do_cases, Hf.
      split_and!; [done..|]. by rewrite filter_cons_True by done.
    + destruct (IH ty [] Hd) as (answers & d' & Hrun & Hd' & Hf).
      eexists (_ :: answers), d'. rewrite Hrun.
      rewrite filter_cons_True by done.
      rewrite for_each_cons, my_queue_do_cases, Hf.
      split_and!; [done..|]. by rewrite filter_cons_True by done.
    + destruct (IH ty (x :: d) Hd) as (answers & d' & Hrun & Hd' & Hf).
      eexists (_ :: answers), d'. rewrite Hrun.
      rewrite filter_cons_True by done.
      rewrite for_each_cons, my_queue_do_cases, Hf.
      split_and!; [done..|]. by rewrite filter_cons_True by done.
Qed.

(** X5. The type invariant of [my_queue]: whatever calls a client makes on
    [my_queue(ty)], going on after each exception, the queue keeps its
    [element_type] and holds only elements of that type. *)
Theorem my_queue_holds_only_its_type (ty : pytype) (cs : list queue_call) :
  ∃ answers q,
    for_each (λ c, attempt (my_queue_do c)) cs (my_queue.__init__ ty) =
      Returns answers q ∧
    my_queue.element_type q = ty ∧
    Forall (λ e, type e = ty) (my_queue.queue q).
Proof.
  destruct (my_queue_interleaved_inv cs ty []) as (answers & d & Hrun & Hd & _);
    [done|].
  by exists answers, (my_queue.mk ty d).
Qed.

(** X6. An enqueue that fails its type check leaves no trace: the calls
    with the ill-typed enqueues left out put the queue in the same final
    state and get the same answers, less the [AssertionError]s. *)
Theorem my_queue_rejected_enqueues_leave_no_trace
    (ty : pytype) (cs : list queue_call) :
  ∃ answers q,
    for_each (λ c, attempt (my_queue_do c)) cs (my_queue.__init__ ty) =
      Returns answers q ∧
    for_each (λ c, attempt (my_queue_do c))
      (filter (enqueues_typed ty) cs) (my_queue.__init__ ty) =
      Returns (filter (λ a, rejected a = false) answers) q.
Proof.
  destruct (my_queue_interleaved_inv cs ty []) as (answers & d & Hrun & _ & Hf);
    [done|].
  by exists answers, (my_queue.mk ty d).
Qed.

Lemma my_queue_simulation (cs : list queue_call) : ∀ ty d,
  Forall (enqueues_typed ty) cs →
  ∃ answers d',
    for_each (λ c, attempt (my_queue_do c)) cs (my_queue.mk ty d) =
      Returns answers (my_queue.mk ty d') ∧
    for_each queue_do cs (queue.mk d) =
      Returns (absent_as_None <$> answers) (queue.mk d') ∧
    Forall (λ a, rejected a = false) answers.
Proof.
  induction cs as [|c cs IH]; intros ty d Hcs.
  - exists [], d. by split_and!.
  - apply Forall_cons in Hcs as [Hc Hcs].
    rewrite !for_each_cons, my_queue_do_cases, queue_do_cases.
    destruct c as [e| |]; [|destruct d as [|x d]..]; simpl in Hc.
    + rewrite bool_decide_eq_true_2 by done.
      destruct (IH ty (d ++ [e]) Hcs) as (answers & d' & -> & -> & Hok).
      exists (Ok VNone :: answers), d'. split_and!; [done..|by constructor].
    + destruct (IH ty [] Hcs) as (answers & d' & -> & -> & Hok).
      eexists (_ :: answers), d'. split_and!; [done..|by constructor].
    + destruct (IH ty d Hcs) as (answers & d' & -> & -> & Hok).
      eexists (_ :: answers), d'. split_and!; [done..|by constructor].
    + destruct (IH ty [] Hcs) as (answers & d' & -> & -> & Hok).
      eexists (_ :: answers), d'. split_and!; [done..|by constructor].
    + destruct (IH ty (x :: d) Hcs) as (answers & d' & -> & -> & Hok).
      eexists (_ :: answers), d'. split_and!; [done..|by constructor].
Qed.

(** X7. The two queues agree under any interleaving: when every enqueued
    element is of the queue's type, the same calls on [my_queue(ty)] and
    on [queue()] leave the same contents after every call and give the
    same answers, except that where [my_queue] raises its [IndexError] on
    an empty queue, [queue] answers [None]; [my_queue] never raises its
    [AssertionError]. *)
Theorem my_queue_agrees_with_queue (ty : pytype) (cs : list queue_call)
    (Htyped : Forall (enqueues_typed ty) cs) :
  ∃ answers mq,
    for_each (λ c, attempt (my_queue_do c)) cs (my_queue.__init__ ty) =
      Returns answers mq ∧
    for_each queue_do cs queue.__init__ =
      Returns (absent_as_None <$> answers) (queue.mk (my_queue.queue mq)) ∧
    Forall (λ a, rejected a = false) answers.
Proof.
  destruct (my_queue_simulation cs ty [] Htyped) as (answers & d & ? & ? & ?).
  by exists answers, (my_queue.mk ty d).
Qed.

Lemma my_queue_agrees_with_queue_witness :
  let cs := [Front; Enqueue (VInt 1); Enqueue (VInt 2); Dequeue; Front;
             Dequeue; Dequeue] in
  ∃ answers mq,
    for_each (λ c, attempt (my_queue_do c)) cs (my_queue.__init__ int) =
      Returns answers mq ∧
    for_each queue_do cs queue.__init__ =
      Returns (absent_as_None <$> answers) (queue.mk (my_queue.queue mq)) ∧
    Forall (λ a, rejected a = false) answers.
Proof.
  apply (my_queue_agrees_with_queue int). repeat constructor.
Defined.

(** X8. [empty()] is a reliable guard: it changes nothing, and it returns
    [True] exactly when [dequeue()] and [front()] would raise; when it
    returns [False], [front()] returns the element the next [dequeue()]
    removes and returns, and changes nothing. *)
Theorem my_queue_empty_guards (q : my_queue.obj) :
  ∃ b,
    my_queue.empty q = Returns b q ∧
    if b then
      (∃ msg, my_queue.dequeue q = Raises (IndexError msg) q) ∧
      (∃ msg, my_queue.front q = Raises (IndexError msg) q)
    else
      ∃ x q',
        my_queue.front q = Returns x q ∧
        my_queue.dequeue q = Returns x q' ∧
        my_queue.queue q = x :: my_queue.queue q' ∧
        my_queue.element_type q' = my_queue.element_type q.
Proof.
  destruct q as [ty [|x d]].
  - exists true. split_and!; [done|by eexists..].
  - exists false. split; [done|]. by exists x, (my_queue.mk ty d).
Qed.

(** ** The heap under any interleaving of pushes and pops *)

Lemma insert_sorted_Permutation e m : insert_sorted e m ≡ₚ e :: m.
Proof.
  induction m as [|x m IH]; simpl; [done|].
  destruct (tuple_lt x e); [|done]. by rewrite IH, perm_swap.
Qed.

Lemma insert_sorted_sorted e m :
  StronglySorted tuple_le m → StronglySorted tuple_le (insert_sorted e m).
Proof.
  induction 1 as [|x m Hm IH Hx]; simpl; [repeat constructor|].
  destruct (tuple_lt x e) eqn:Hlt.
  - constructor; [done|]. rewrite insert_sorted_Permutation.
    constructor; [|done]. by apply tuple_lt_asym.
  - assert (tuple_le e x) as Hex by done.
    constructor; [by constructor|]. constructor; [done|].
    eapply Forall_impl; [done|]. intros y Hy. by eapply tuple_le_trans.
Qed.

Lemma heap_step_simulation c h m :
  is_heap tuple_lt h → h ≡ₚ m → StronglySorted tuple_le m →
  ∃ h',
    attempt (heap_do c) h = Returns (sorted_do c m).1 h' ∧
    is_heap tuple_lt h' ∧ h' ≡ₚ (sorted_do c m).2 ∧
    StronglySorted tuple_le (sorted_do c m).2.
Proof.
  intros Hheap Hperm Hsorted. destruct c as [e|]; simpl.
  - destruct (heappush_spec tuple_lt tuple_lt_asym tuple_le_trans h e Hheap)
      as (h' & Hrun & Hheap' & Hperm').
    exists h'. unfold attempt. rewrite (bind_returns _ _ _ _ _ Hrun).
    split_and!; [done..| |by apply insert_sorted_sorted].
    by rewrite Hperm', insert_sorted_Permutation, Hperm.
  - destruct m as [|y m]; simpl.
    + apply Permutation_nil_r in Hperm as ->. exists [].
      split_and!; [done|done|done|constructor].
    + assert (h ≠ []) as Hne.
      { intros ->. by apply Permutation_nil_cons in Hperm. }
      destruct (heappop_spec tuple_lt tuple_lt_asym tuple_le_trans h Hheap Hne)
        as (x & h' & Hrun & Hheap' & Hperm' & Hmin).
      apply StronglySorted_inv in Hsorted as [Hsorted Hy].
      assert (x = y) as ->.
      { apply (anti_symm tuple_le).
        - rewrite Forall_forall in Hmin. apply Hmin.
          rewrite Hperm. apply list_elem_of_here.
        - assert (x ∈ y :: m) as Hin.
          { rewrite <-Hperm, Hperm'. apply list_elem_of_here. }
          apply elem_of_cons in Hin as [->|Hin].
          + apply (le_refl tuple_lt tuple_lt_asym).
          + rewrite Forall_forall in Hy. by apply Hy. }
      exists h'. unfold attempt. rewrite (bind_returns _ _ _ _ _ Hrun).
      split_and!; [done..| |done].
      rewrite Hperm' in Hperm. by apply Permutation_cons_inv in Hperm.
Qed.

Lemma heap_run_simulation (cs : list heap_call) : ∀ h m,
  is_heap tuple_lt h → h ≡ₚ m → StronglySorted tuple_le m →
  ∃ h',
    for_each (λ c, attempt (heap_do c)) cs h = Returns (sorted_run cs m).1 h' ∧
    is_heap tuple_lt h' ∧ h' ≡ₚ (sorted_run cs m).2 ∧
    StronglySorted tuple_le (sorted_run cs m).2.
Proof.
  induction cs as [|c cs IH]; intros h m Hheap Hperm Hsorted.
  - by exists h.
  - destruct (heap_step_simulation c h m Hheap Hperm Hsorted)
      as (h1 & Hrun1 & Hheap1 & Hperm1 & Hsorted1).
    destruct (IH h1 _ Hheap1 Hperm1 Hsorted1)
      as (h2 & Hrun2 & Hheap2 & Hperm2 & Hsorted2).
    exists h2. rewrite for_each_cons, Hrun1, Hrun2. simpl.
    destruct (sorted_do c m) as [a m1]. simpl in *.
    by destruct (sorted_run cs m1) as [answers m2].
Qed.

(** X9. The heap is a priority queue under any interleaving: whatever
    sequence of [heappush] and [heappop] calls is made on the empty list,
    going on after each exception, every call answers as the same call on
    a sorted list does (a push inserts in place, a pop takes the least
    entry, a pop of nothing raises [IndexError]), and the heap holds the
    entries of that sorted list. *)
Theorem heap_refines_sorted_list (cs : list heap_call) :
  ∃ h,
    for_each (λ c, attempt (heap_do c)) cs pri_q_heap =
      Returns (sorted_run cs []).1 h ∧
    h ≡ₚ (sorted_run cs []).2 ∧
    StronglySorted tuple_le (sorted_run cs []).2.
Proof.
  destruct (heap_run_simulation cs [] [])
    as (h & Hrun & _ & Hperm & Hsorted);
    [apply is_heap_nil|done|constructor|].
  by exists h.
Qed.

(** X10. The invariant [heapq] documents is kept throughout: after any
    sequence of [heappush] and [heappop] calls on the empty list, going on
    after each exception, [heap[k] <= heap[2*k+1]] and
    [heap[k] <= heap[2*k+2]] hold wherever the positions exist, and
    [heap[0]] is a least entry of the heap. *)
Theorem heap_invariant_kept (cs : list heap_call) :
  ∃ answers h,
    for_each (λ c, attempt (heap_do c)) cs pri_q_heap = Returns answers h ∧
    (∀ k x c, h !! k = Some x →
       h !! (2 * k + 1)%nat = Some c ∨ h !! (2 * k + 2)%nat = Some c →
       tuple_le x c) ∧
    (∀ r x, h !! 0%nat = Some r → x ∈ h → tuple_le r x).
Proof.
  destruct (heap_run_simulation cs [] [])
    as (h & Hrun & Hheap & _ & _);
    [apply is_heap_nil|done|constructor|].
  eexists _, h. split_and!; [done| |].
  - intros k x c Hx Hc.
    assert (∀ i, (i = 2 * k + 1 ∨ i = 2 * k + 2)%nat → h !! i = Some c →
                 tuple_le x c) as Hkid.
    { intros i Hi Hic. parents i.
      apply (Hheap i c x); [lia|done|].
      replace (heapq.parent_of i) with k by lia. done. }
    destruct Hc as [Hc|Hc]; (eapply Hkid; [|exact Hc]); auto.
  - intros r x Hr Hx.
    pose proof (heap_root_min tuple_lt tuple_lt_asym tuple_le_trans h r Hheap Hr)
      as Hmin.
    rewrite Forall_forall in Hmin. by apply Hmin.
Qed.

Lemma pq_step c h a h' :
  heap_do c h = Returns a h' →
  pq_do c (PriorityQueue.mk h) =
  Returns (PriorityQueue.Got a) (PriorityQueue.mk h').
Proof.
  destruct c as [e|]; simpl.
  - unfold PriorityQueue.put, on_attr. rewrite !bind_unfold. simpl.
    destruct (heapq.heappush tuple_lt e h); [|done]. by intros [= <- <-].
  - unfold PriorityQueue.get, on_attr. rewrite !bind_unfold. simpl.
    destruct h as [|x h]; [done|]. simpl. rewrite !bind_unfold.
    cbn [PriorityQueue.queue].
    destruct (heapq.heappop tuple_lt (x :: h)); [|done].
    by intros [= <- <-].
Qed.

Lemma pq_run_simulation (cs : list heap_call) : ∀ h0 answers h,
  for_each heap_do cs h0 = Returns answers h →
  for_each pq_do cs (PriorityQueue.mk h0) =
  Returns (PriorityQueue.Got <$> answers) (PriorityQueue.mk h).
Proof.
  induction cs as [|c cs IH]; intros h0 answers h.
  - by intros [= <- <-].
  - rewrite !for_each_cons.
    destruct (heap_do c h0) as [a h1|] eqn:Hc; [|done].
    rewrite (pq_step _ _ _ _ Hc).
    destruct (for_each heap_do cs h1) as [rest h2|] eqn:Hcs; [|done].
    intros [= <- <-]. by rewrite (IH _ _ _ Hcs).
Qed.

(** X11. [PriorityQueue] gives the same outcome as [heapq]: whenever a
    sequence of pushes and pops on the list [pri_q_heap] runs without an
    exception, the same sequence of [put] and [get] calls on a fresh
    [PriorityQueue] returns the same entries and holds the same list, and
    no [get] has to wait. *)
Theorem PriorityQueue_same_outcome (cs : list heap_call)
    (answers : list (option entry)) (h : list entry)
    (Hrun : for_each heap_do cs pri_q_heap = Returns answers h) :
  for_each pq_do cs pri_q_PQ =
  Returns (PriorityQueue.Got <$> answers) (PriorityQueue.mk h).
Proof.
  by apply pq_run_simulation.
Qed.

Lemma PriorityQueue_same_outcome_witness :
  for_each pq_do
    [HeapPush (2, "Sleep"); HeapPush (1, "Eat"); HeapPop; HeapPush (3, "Work");
     HeapPop]%string pri_q_PQ =
  Returns (PriorityQueue.Got <$>
             [None; None; Some (1, "Eat"); None; Some (2, "Sleep")]%string)
    (PriorityQueue.mk [(3, "Work")]%string).
Proof.
  apply (PriorityQueue_same_outcome
           [HeapPush (2, "Sleep"); HeapPush (1, "Eat"); HeapPop;
            HeapPush (3, "Work"); HeapPop]%string).
  vm_compute. reflexivity.
Defined.

(** ** The [defaultdict] on [default_value] *)

(** X12. Reading a [defaultdict] built on [default_value] never raises
    [KeyError]: a key that is there gives its value and the dictionary is
    unchanged; a key that is not gives ['Not Present'] and is inserted with
    that value, so the dictionary grows by one item and a second read
    changes nothing more.  After [d[key] = value], [d[key]] is [value]. *)
Theorem defaultdict_read_inserts_default (d : defaultdict.obj) (key : string)
    (Hfactory : defaultdict.default_factory d = Some default_value) :
  ∃ v d',
    defaultdict.__getitem__ key d = (pydict.Found v, d') ∧
    v = default (VStr "Not Present") (defaultdict.items d !! key) ∧
    defaultdict.items d' = <[key:=v]> (defaultdict.items d) ∧
    defaultdict.default_factory d' = defaultdict.default_factory d ∧
    (is_Some (defaultdict.items d !! key) → d' = d) ∧
    (defaultdict.items d !! key = None →
     defaultdict.__len__ d' = defaultdict.__len__ d + 1) ∧
    defaultdict.__getitem__ key d' = (pydict.Found v, d') ∧
    ∀ value,
      defaultdict.__getitem__ key (defaultdict.__setitem__ key value d) =
      (pydict.Found value, defaultdict.__setitem__ key value d).
Proof.
  destruct d as [f items]. simpl in Hfactory. subst f.
  unfold defaultdict.__getitem__, defaultdict.__missing__,
    defaultdict.__setitem__, defaultdict.__len__. simpl.
  destruct (items !! key) as [v|] eqn:Hkey; simpl.
  - exists v, (defaultdict.mk (Some default_value) items). simpl.
    rewrite Hkey. split_and!; try done.
    + by rewrite insert_id.
    + intros value. by rewrite lookup_insert_eq.
  - eexists _, _. split; [done|]. simpl. rewrite lookup_insert_eq.
    split_and!; try done.
    + intros _. rewrite map_size_insert_None by done. lia.
    + intros value. by rewrite lookup_insert_eq.
Qed.

Lemma defaultdict_read_inserts_default_witness :
  ∃ v d',
    defaultdict.__getitem__ "second_key" my_default_dict = (pydict.Found v, d') ∧
    v = default (VStr "Not Present")
          (defaultdict.items my_default_dict !! "second_key") ∧
    defaultdict.items d' = <["second_key":=v]> (defaultdict.items my_default_dict) ∧
    defaultdict.default_factory d' = defaultdict.default_factory my_default_dict ∧
    (is_Some (defaultdict.items my_default_dict !! "second_key") →
     d' = my_default_dict) ∧
    (defaultdict.items my_default_dict !! "second_key" = None →
     defaultdict.__len__ d' = defaultdict.__len__ my_default_dict + 1) ∧
    defaultdict.__getitem__ "second_key" d' = (pydict.Found v, d') ∧
    ∀ value,
      defaultdict.__getitem__ "second_key"
        (defaultdict.__setitem__ "second_key" value my_default_dict) =
      (pydict.Found value,
       defaultdict.__setitem__ "second_key" value my_default_dict).
Proof.
  apply (defaultdict_read_inserts_default my_default_dict "second_key").
  reflexivity.
Defined.

(** The reads the source shows: ['first_key'] is ['Present'] once it has
    been assigned, and was ['Not Present'] before. *)
Example my_default_dict_scenario :
  (defaultdict.__getitem__ "first_key"
     (defaultdict.__init__ (Some default_value))).1 =
    pydict.Found (VStr "Not Present") ∧
  (defaultdict.__getitem__ "first_key" my_default_dict).1 =
    pydict.Found (VStr "Present").
Proof. split; vm_compute; reflexivity. Qed.

(** ** The [ChainMap] over [dict1] and [dict2] *)

Lemma ChainMap_search_spec (ms : list nat) key (store : ChainMap.objects) :
  Forall (λ a, a < length store)%nat ms →
  match ChainMap.search ms key store with
  | pydict.Found v =>
      ∃ i a d, ms !! i = Some a ∧ store !! a = Some d ∧ d !! key = Some v ∧
        ∀ j b e, (j < i)%nat → ms !! j = Some b → store !! b = Some e →
          e !! key = None
  | pydict.KeyError arg =>
      arg = pydict.the_key key ∧
      ∀ a d, a ∈ ms → store !! a = Some d → d !! key = None
  end.
Proof.
  induction 1 as [|a ms Ha Hms IH]; simpl.
  - split; [done|]. by intros a d Hin%elem_of_nil.
  - destruct (lookup_lt_is_Some_2 store a Ha) as [d Hd].
    rewrite Hd. simpl. unfold pydict.getitem.
    destruct (d !! key) as [v|] eqn:Hkey.
    + exists 0%nat, a, d. split_and!; [done..|]. intros; lia.
    + destruct (ChainMap.search ms key store) as [v|arg].
      * destruct IH as (i & b & e & Hi & Hb & He & Hfirst).
        exists (S i), b, e. split_and!; [done..|].
        intros [|j] b' e' Hj; simpl.
        -- intros [= <-]. rewrite Hd. by intros [= <-].
        -- apply Hfirst. lia.
      * destruct IH as [-> Hnone]. split; [done|].
        intros b e [->|Hin]%elem_of_cons Hb.
        -- rewrite Hd in Hb. by injection Hb as <-.
        -- by eapply Hnone.
Qed.

(** X13. A lookup through a [ChainMap] searches the mappings one by one:
    it returns the value the first mapping that has the key gives it,
    whatever later mappings hold, and raises [KeyError] on the key exactly
    when no mapping has it. *)
Theorem ChainMap_lookup_first_match (c : ChainMap.obj)
    (store : ChainMap.objects) (key : string)
    (Hwf : ChainMap.well_formed c store) :
  match ChainMap.__getitem__ key c store with
  | pydict.Found v =>
      ∃ i a d, ChainMap.maps c !! i = Some a ∧ store !! a = Some d ∧
        d !! key = Some v ∧
        ∀ j b e, (j < i)%nat → ChainMap.maps c !! j = Some b →
          store !! b = Some e → e !! key = None
  | pydict.KeyError arg =>
      arg = pydict.the_key key ∧
      ∀ a d, a ∈ ChainMap.maps c → store !! a = Some d → d !! key = None
  end.
Proof. destruct Hwf as [_ Hwf]. by apply ChainMap_search_spec. Qed.

Lemma ChainMap_lookup_first_match_witness :
  match ChainMap.__getitem__ "three" chain_map dicts with
  | pydict.Found v =>
      ∃ i a d, ChainMap.maps chain_map !! i = Some a ∧ dicts !! a = Some d ∧
        d !! "three" = Some v ∧
        ∀ j b e, (j < i)%nat → ChainMap.maps chain_map !! j = Some b →
          dicts !! b = Some e → e !! "three" = None
  | pydict.KeyError arg =>
      arg = pydict.the_key "three" ∧
      ∀ a d, a ∈ ChainMap.maps chain_map → dicts !! a = Some d →
        d !! "three" = None
  end.
Proof.
  apply (ChainMap_lookup_first_match chain_map dicts "three").
  split; [done|]. repeat constructor.
Defined.

(** The lookups the source shows. *)
Example chain_map_scenario :
  ChainMap.__getitem__ "three" chain_map dicts = pydict.Found (VInt 3) ∧
  ChainMap.__getitem__ "one" chain_map dicts = pydict.Found (VInt 1) ∧
  ChainMap.__getitem__ "Jackrabbit" chain_map dicts =
    pydict.KeyError (pydict.the_key "Jackrabbit").
Proof. split_and!; vm_compute; reflexivity. Qed.

Lemma ChainMap_first_mapping (c : ChainMap.obj) (store : ChainMap.objects) :
  ChainMap.well_formed c store →
  ∃ ms d,
    ChainMap.maps c = ChainMap.first_mapping c :: ms ∧
    (ChainMap.first_mapping c < length store)%nat ∧
    store !! ChainMap.first_mapping c = Some d.
Proof.
  destruct c as [[|a ms]]; intros [Hne Hwf]; [done|]. simpl in *.
  apply Forall_cons in Hwf as [Ha _].
  destruct (lookup_lt_is_Some_2 store a Ha) as [d Hd].
  by exists ms, d.
Qed.

Lemma ChainMap_well_formed_insert c store a d :
  ChainMap.well_formed c store → ChainMap.well_formed c (<[a:=d]> store).
Proof. intros [? ?]. split; [done|]. by rewrite length_insert. Qed.

(** X14. An assignment through a [ChainMap] only affects the first
    mapping: [chain[key] = value] sets the key in the dictionary at
    [maps[0]] and leaves every other dictionary as it was, and the chain
    then gives [value] for the key, whatever the later mappings hold for
    it. *)
Theorem ChainMap_setitem_first_only (c : ChainMap.obj)
    (store : ChainMap.objects) (key : string) (value : pyval)
    (Hwf : ChainMap.well_formed c store) :
  let a := ChainMap.first_mapping c in
  let store' := ChainMap.__setitem__ key value c store in
  (∃ d, store !! a = Some d ∧ store' !! a = Some (<[key:=value]> d)) ∧
  (∀ b, b ≠ a → store' !! b = store !! b) ∧
  ChainMap.well_formed c store' ∧
  ChainMap.__getitem__ key c store' = pydict.Found value.
Proof.
  intros a store'.
  destruct (ChainMap_first_mapping c store Hwf) as (ms & d & Hmaps & Ha & Hd).
  subst a store'. unfold ChainMap.__setitem__, ChainMap.__getitem__.
  rewrite Hd. simpl. split_and!.
  - exists d. split; [done|]. by rewrite list_lookup_insert_eq.
  - intros b Hb. by rewrite list_lookup_insert_ne.
  - by apply ChainMap_well_formed_insert.
  - rewrite Hmaps at 1. simpl. rewrite list_lookup_insert_eq by done. simpl.
    unfold pydict.getitem. by rewrite lookup_insert_eq.
Qed.

Lemma ChainMap_setitem_first_only_witness :
  let a := ChainMap.first_mapping chain_map in
  let store' := ChainMap.__setitem__ "three" (VInt 33) chain_map dicts in
  (∃ d, dicts !! a = Some d ∧ store' !! a = Some (<["three":=VInt 33]> d)) ∧
  (∀ b, b ≠ a → store' !! b = dicts !! b) ∧
  ChainMap.well_formed chain_map store' ∧
  ChainMap.__getitem__ "three" chain_map store' = pydict.Found (VInt 33).
Proof.
  apply (ChainMap_setitem_first_only chain_map dicts "three" (VInt 33)).
  split; [done|]. repeat constructor.
Defined.

(** X15. A deletion through a [ChainMap] only affects the first mapping:
    [del chain[key]] removes the key from the dictionary at [maps[0]] and
    leaves every other dictionary as it was, after which a lookup of the
    key falls through to the later mappings; when the first mapping does
    not have the key, the call raises [KeyError] even if a later mapping
    has it. *)
Theorem ChainMap_delitem_first_only (c : ChainMap.obj)
    (store : ChainMap.objects) (key : string)
    (Hwf : ChainMap.well_formed c store) :
  let a := ChainMap.first_mapping c in
  ∃ d, store !! a = Some d ∧
    match ChainMap.__delitem__ key c store with
    | pydict.Found store' =>
        is_Some (d !! key) ∧
        store' !! a = Some (delete key d) ∧
        (∀ b, b ≠ a → store' !! b = store !! b) ∧
        ChainMap.well_formed c store' ∧
        ChainMap.__getitem__ key c store' =
          ChainMap.search (tail (ChainMap.maps c)) key store'
    | pydict.KeyError arg =>
        arg = pydict.not_in_first_mapping key ∧
        d !! key = None ∧
        ChainMap.__getitem__ key c store =
          ChainMap.search (tail (ChainMap.maps c)) key store
    end.
Proof.
  intros a.
  destruct (ChainMap_first_mapping c store Hwf) as (ms & d & Hmaps & Ha & Hd).
  subst a. exists d. split; [done|].
  unfold ChainMap.__delitem__, ChainMap.__getitem__, pydict.delitem.
  rewrite Hd. simpl. destruct (d !! key) as [v|] eqn:Hkey.
  - split_and!.
    + done.
    + by rewrite list_lookup_insert_eq.
    + intros b Hb. by rewrite list_lookup_insert_ne.
    + by apply ChainMap_well_formed_insert.
    + rewrite Hmaps at 1 2. simpl.
      rewrite list_lookup_insert_eq by done. simpl.
      unfold pydict.getitem. by rewrite lookup_delete_eq.
  - split_and!; [done..|].
    rewrite Hmaps at 1 2. simpl. rewrite Hd. simpl.
    unfold pydict.getitem. by rewrite Hkey.
Qed.

Lemma ChainMap_delitem_first_only_witness :
  let a := ChainMap.first_mapping chain_map in
  ∃ d, dicts !! a = Some d ∧
    match ChainMap.__delitem__ "three" chain_map dicts with
    | pydict.Found store' =>
        is_Some (d !! "three") ∧
        store' !! a = Some (delete "three" d) ∧
        (∀ b, b ≠ a → store' !! b = dicts !! b) ∧
        ChainMap.well_formed chain_map store' ∧
        ChainMap.__getitem__ "three" chain_map store' =
          ChainMap.search (tail (ChainMap.maps chain_map)) "three" store'
    | pydict.KeyError arg =>
        arg = pydict.not_in_first_mapping "three" ∧
        d !! "three" = None ∧
        ChainMap.__getitem__ "three" chain_map dicts =
          ChainMap.search (tail (ChainMap.maps chain_map)) "three" dicts
    end.
Proof.
  apply (ChainMap_delitem_first_only chain_map dicts "three").
  split; [done|]. repeat constructor.
Defined.
